(** * juce::NamedPipe — lifecycle of a named pipe endpoint

    Shallow embedding of [modules/juce_core/network/juce_NamedPipe.cpp].

    The file implements the platform-independent half of [NamedPipe]: the
    constructor, the destructor, [openExisting], [isOpen], [createNewPipe]
    and [getName].  "Other methods for this class are implemented in the
    platform-specific files": [close], [openInternal], [read] and [write]
    are modelled from the specification, over an abstract platform pipe
    driver. *)

From Stdlib Require Import ZArith.
From stdpp Require Import base option list strings gmap.

Local Open Scope Z_scope.

(** ** The platform pipe driver *)

(** Outcome of a driver transfer: [bytesRead | Error | TimedOut]. *)
Inductive IOResult (A : Type) : Type :=
  | IODone (a : A)
  | IOError
  | IOTimedOut.
Arguments IODone {A} a.
Arguments IOError {A}.
Arguments IOTimedOut {A}.

(** Modelled from the spec: the platform pipe driver, the external
    collaborator that owns the OS-level handle.  Its five operations are
    [driverOpen(name, asServer, mustNotExist) -> Handle | Error],
    [driverRead(Handle, buffer, timeoutMs)], [driverWrite(Handle, buffer,
    timeoutMs)], [driverCancelPendingIO(Handle)] and [driverClose(Handle)].
    Each acts on the state [World] of the operating system. *)
Class PipeDriver (World Handle : Type) := {
  driverOpen : string → bool → bool → World → option Handle * World;
  driverRead : Handle → Z → Z → World → IOResult (list Byte.byte) * World;
  driverWrite : Handle → list Byte.byte → Z → World → IOResult Z * World;
  driverCancelPendingIO : Handle → World → World;
  driverClose : Handle → World → World
}.

(** ** The NamedPipe object *)

Section NamedPipe.
Context {World Handle : Type} `{!PipeDriver World Handle}.

(** The two data members touched by the file: [String currentPipeName]
    and [std::unique_ptr<Pimpl> pimpl]. *)
Record NamedPipe := mkNamedPipe {
  currentPipeName : string;
  pimpl : option Handle
}.

(** What a call does that an outside observer can see, in order: entering
    and leaving a [ScopedReadLock] or a [ScopedWriteLock] on the member
    [lock], and the calls made to the driver. *)
Inductive Event :=
  | EvReadLock
  | EvReadUnlock
  | EvWriteLock
  | EvWriteUnlock
  | EvDriverOpen (name : string) (asServer mustNotExist : bool)
  | EvDriverRead (h : Handle)
  | EvDriverWrite (h : Handle)
  | EvDriverCancel (h : Handle)
  | EvDriverClose (h : Handle).

(** A member function runs on the object ([self]), the operating system
    ([drv]) and the events so far ([trace]). *)
Record St := mkSt {
  self : NamedPipe;
  drv : World;
  trace : list Event
}.

Definition M (A : Type) : Type := St → A * St.

Definition ret {A} (a : A) : M A := λ st, (a, st).

Definition bind {A B} (m : M A) (k : A → M B) : M B :=
  λ st, let '(a, st') := m st in k a st'.

Definition emit (e : Event) : M unit :=
  λ st, (tt, mkSt (self st) (drv st) (trace st ++ [e])).

Definition getPimpl : M (option Handle) := λ st, (pimpl (self st), st).

Definition setPimpl (p : option Handle) : M unit :=
  λ st, (tt, mkSt (mkNamedPipe (currentPipeName (self st)) p) (drv st) (trace st)).

Definition getCurrentPipeName : M string :=
  λ st, (currentPipeName (self st), st).

Definition setCurrentPipeName (n : string) : M unit :=
  λ st, (tt, mkSt (mkNamedPipe n (pimpl (self st))) (drv st) (trace st)).

Definition onDriver {A} (f : World → A * World) : M A :=
  λ st, let '(a, w) := f (drv st) in (a, mkSt (self st) w (trace st)).

End NamedPipe.

Arguments NamedPipe Handle : clear implicits.
Arguments Event Handle : clear implicits.
Arguments St World Handle : clear implicits.
Arguments M World Handle A : clear implicits.

Declare Scope pipe_scope.
Delimit Scope pipe_scope with pipe.
Notation "x ← m ; k" := (bind m (λ x, k))
  (at level 20, m at level 100, k at level 200, only parsing) : pipe_scope.
Notation "m ;; k" := (bind m (λ _, k))
  (at level 100, k at level 200, right associativity, only parsing) : pipe_scope.

Section Members.
Context {World Handle : Type} `{!PipeDriver World Handle}.
Local Open Scope pipe_scope.

Local Abbreviation M := (M World Handle).

(** [const ScopedReadLock sl (lock);] guarding the rest of the block. *)
Definition scopedReadLock {A} (body : M A) : M A :=
  emit EvReadLock ;; r ← body ; emit EvReadUnlock ;; ret r.

(** [const ScopedWriteLock sl (lock);] guarding the rest of the block. *)
Definition scopedWriteLock {A} (body : M A) : M A :=
  emit EvWriteLock ;; r ← body ; emit EvWriteUnlock ;; ret r.

(** [pimpl != nullptr] *)
Definition notNull (p : option Handle) : bool :=
  match p with Some _ => true | None => false end.

(** [NamedPipe::NamedPipe() {}] *)
Definition construct : NamedPipe Handle := mkNamedPipe "" None.

(** Modelled from the spec: [NamedPipe::close], which lives in the
    platform-specific files.  "If open, instructs the driver to cancel any
    in-flight read/write on this handle, then destroys the handle and
    clears Pipe State to closed.  Safe to call when already closed
    (no-op)."  The cancellation request comes before the exclusive
    acquisition for teardown. *)
Definition close : M unit :=
  p ← getPimpl ;
  match p with
  | Some h =>
      emit (EvDriverCancel h) ;;
      onDriver (λ w, (tt, driverCancelPendingIO h w)) ;;
      scopedWriteLock (
        emit (EvDriverClose h) ;;
        onDriver (λ w, (tt, driverClose h w)) ;;
        setPimpl None)
  | None => ret tt
  end.

(** Modelled from the spec: [NamedPipe::openInternal (pipeName,
    createPipe, mustNotExist)], which lives in the platform-specific
    files.  It asks the driver for a handle; "returns true and installs
    the driver handle on success; returns false (and leaves the pipe
    closed)" otherwise. *)
Definition openInternal (pipeName : string) (createPipe mustNotExist : bool)
    : M bool :=
  emit (EvDriverOpen pipeName createPipe mustNotExist) ;;
  r ← onDriver (driverOpen pipeName createPipe mustNotExist) ;
  match r with
  | Some h => setPimpl (Some h) ;; ret true
  | None => ret false
  end.

(** [NamedPipe::~NamedPipe() { close(); }] *)
Definition destroy : M unit := close.

(** [bool NamedPipe::openExisting (const String& pipeName)] *)
Definition openExisting (pipeName : string) : M bool :=
  close ;;
  scopedWriteLock (
    setCurrentPipeName pipeName ;;
    openInternal pipeName false false).

(** [bool NamedPipe::isOpen() const] *)
Definition isOpen : M bool :=
  scopedReadLock (p ← getPimpl ; ret (notNull p)).

(** [bool NamedPipe::createNewPipe (const String& pipeName, bool mustNotExist)] *)
Definition createNewPipe (pipeName : string) (mustNotExist : bool) : M bool :=
  close ;;
  scopedWriteLock (
    setCurrentPipeName pipeName ;;
    openInternal pipeName true mustNotExist).

(** [String NamedPipe::getName() const] *)
Definition getName : M string :=
  scopedReadLock getCurrentPipeName.

(** Modelled from the spec: [NamedPipe::read (destBuffer, maxBytesToRead,
    timeOutMilliseconds)], which lives in the platform-specific files.
    "Acquires shared access to Pipe State for the duration; if no handle
    is present, fails immediately returning -1"; a driver error or
    timeout is surfaced as -1 too.  The result is the returned count and
    the bytes stored in the destination buffer. *)
Definition read (maxBytesToRead timeOutMilliseconds : Z) : M (Z * list Byte.byte) :=
  scopedReadLock (
    p ← getPimpl ;
    match p with
    | None => ret (-1, [])
    | Some h =>
        emit (EvDriverRead h) ;;
        r ← onDriver (driverRead h maxBytesToRead timeOutMilliseconds) ;
        match r with
        | IODone bs => ret (Z.of_nat (length bs), bs)
        | IOError | IOTimedOut => ret (-1, [])
        end
    end).

(** Modelled from the spec: [NamedPipe::write (sourceBuffer,
    numBytesToWrite, timeOutMilliseconds)], "symmetric contract to read";
    the driver is handed the first [numBytesToWrite] bytes of the buffer. *)
Definition write (sourceBuffer : list Byte.byte)
    (numBytesToWrite timeOutMilliseconds : Z) : M Z :=
  scopedReadLock (
    p ← getPimpl ;
    match p with
    | None => ret (-1)
    | Some h =>
        emit (EvDriverWrite h) ;;
        r ← onDriver (driverWrite h (take (Z.to_nat numBytesToWrite) sourceBuffer)
                                  timeOutMilliseconds) ;
        match r with
        | IODone n => ret n
        | IOError | IOTimedOut => ret (-1)
        end
    end).

(** The events [close] adds for a given handle state. *)
Definition closeEvents (p : option Handle) : list (Event Handle) :=
  match p with
  | Some h => [EvDriverCancel h; EvWriteLock; EvDriverClose h; EvWriteUnlock]
  | None => []
  end.

(** The operating system after [close]. *)
Definition closeWorld (p : option Handle) (w : World) : World :=
  match p with
  | Some h => driverClose h (driverCancelPendingIO h w)
  | None => w
  end.

End Members.

(** ** A reference platform *)

(** Modelled from the spec: a sequential operating system standing for the
    platform-specific files.  It keeps the table of open endpoints and, for
    each pipe name that exists, the endpoint that created it.  The policy
    for names follows the contract of the lifecycle operations and the
    expectations of [NamedPipeTests]:
    - opening an existing pipe "must already exist, created by another
      party", and "does not create a new pipe as a side effect";
    - creating with [mustNotExist] "fails when a pipe of that name already
      exists and is owned by another party"; without it the call "may
      join/attach to it rather than failing", and the name stays with its
      first creator;
    - the name goes away when its creator is closed (after the block
      "Create pipe" ends, "Existing pipe" expects [openExisting] to fail).
    What a transfer moves is decided by the peer and the operating system:
    the answers come from a [script] carried by the world, one per call. *)
Module RefDriver.

(** An open endpoint: the name it was opened under, and whether it is on
    the creating side. *)
Record Endpoint := mkEndpoint {
  epName : string;
  epServer : bool
}.

(** The operating system: the next handle to hand out, the open endpoints
    by handle, the creating endpoint of each existing name, the endpoints
    whose pending transfers were cancelled, and the answers to come. *)
Record World := mkWorld {
  nextHandle : nat;
  endpoints : gmap nat Endpoint;
  owners : gmap string nat;
  cancelled : gset nat;
  script : list (IOResult (list Byte.byte))
}.

Definition boot (sc : list (IOResult (list Byte.byte))) : World :=
  mkWorld 0 ∅ ∅ ∅ sc.

(** A new endpoint under a fresh handle; [own] is the table of names to
    leave behind. *)
Definition connect (name : string) (asServer : bool)
    (own : gmap string nat) (w : World) : option nat * World :=
  let h := nextHandle w in
  (Some h, mkWorld (S h) (<[h := mkEndpoint name asServer]> (endpoints w))
                   own (cancelled w) (script w)).

(** Modelled from the spec: [driverOpen(name, asServer, mustNotExist) ->
    Handle | Error]. *)
Definition open (name : string) (asServer mustNotExist : bool) (w : World)
    : option nat * World :=
  match owners w !! name with
  | Some _ =>
      if asServer && mustNotExist then (None, w)
      else connect name asServer (owners w) w
  | None =>
      if asServer then connect name asServer (<[name := nextHandle w]> (owners w)) w
      else (None, w)
  end.

(** Modelled from the spec: [driverCancelPendingIO(Handle)]; transfers on
    a cancelled endpoint fail. *)
Definition cancelPendingIO (h : nat) (w : World) : World :=
  match endpoints w !! h with
  | Some _ => mkWorld (nextHandle w) (endpoints w) (owners w)
                      ({[h]} ∪ cancelled w) (script w)
  | None => w
  end.

(** The names that remain when endpoint [h] goes: the name it created, if
    any, goes with it. *)
Definition release (h : nat) (w : World) : gmap string nat :=
  match endpoints w !! h with
  | Some ep =>
      if decide (owners w !! epName ep = Some h)
      then delete (epName ep) (owners w)
      else owners w
  | None => owners w
  end.

(** Modelled from the spec: [driverClose(Handle)]. *)
Definition closeHandle (h : nat) (w : World) : World :=
  mkWorld (nextHandle w) (delete h (endpoints w)) (release h w)
          (cancelled w ∖ {[h]}) (script w).

(** Whether a transfer can be attempted on [h]: it is an open endpoint and
    was not cancelled. *)
Definition usable (h : nat) (w : World) : bool :=
  bool_decide (is_Some (endpoints w !! h)) && bool_decide (h ∉ cancelled w).

(** The next answer of the environment to a transfer on [h]; with no
    answer left nothing arrives and the transfer times out. *)
Definition answer (h : nat) (w : World) : IOResult (list Byte.byte) * World :=
  if usable h w then
    match script w with
    | [] => (IOTimedOut, w)
    | a :: sc =>
        (a, mkWorld (nextHandle w) (endpoints w) (owners w) (cancelled w) sc)
    end
  else (IOError, w).

(** Modelled from the spec: [driverRead(Handle, buffer, timeoutMs) ->
    bytesRead | Error | TimedOut]; at most [maxBytes] bytes are stored. *)
Definition readHandle (h : nat) (maxBytes timeoutMs : Z) (w : World)
    : IOResult (list Byte.byte) * World :=
  let '(a, w') := answer h w in
  (match a with
   | IODone bs => IODone (take (Z.to_nat maxBytes) bs)
   | IOError => IOError
   | IOTimedOut => IOTimedOut
   end, w').

(** Modelled from the spec: [driverWrite(Handle, buffer, timeoutMs) ->
    bytesWritten | Error | TimedOut]; a completed write has accepted all
    bytes. *)
Definition writeHandle (h : nat) (buffer : list Byte.byte) (timeoutMs : Z)
    (w : World) : IOResult Z * World :=
  let '(a, w') := answer h w in
  (match a with
   | IODone _ => IODone (Z.of_nat (length buffer))
   | IOError => IOError
   | IOTimedOut => IOTimedOut
   end, w').

#[global] Instance driver : PipeDriver World nat := {|
  driverOpen := open;
  driverRead := readHandle;
  driverWrite := writeHandle;
  driverCancelPendingIO := cancelPendingIO;
  driverClose := closeHandle
|}.

End RefDriver.

Import RefDriver.

(** ** Several NamedPipe objects on one platform *)

(** The objects alive in the program, by address, and the operating system
    they share. *)
Record System := mkSystem {
  insts : gmap nat (NamedPipe nat);
  os : World
}.

Definition init (sc : list (IOResult (list Byte.byte))) : System :=
  mkSystem ∅ (boot sc).

(** Calling member function [m] on the object at address [i]. *)
Definition call {A} (i : nat) (m : M World nat A) (s : System)
    : option (A * System) :=
  match insts s !! i with
  | Some p =>
      let '(r, st) := m (mkSt p (os s) []) in
      Some (r, mkSystem (<[i := self st]> (insts s)) (drv st))
  | None => None
  end.

(** The system after a call; a call on an object that does not exist is
    no call. *)
Definition after {A} (r : option (A * System)) (s : System) : System :=
  match r with Some (_, s') => s' | None => s end.

(** The public operations of the class. *)
Inductive Op :=
  | Construct (i : nat)
  | Destroy (i : nat)
  | OpenExisting (i : nat) (pipeName : string)
  | CreateNewPipe (i : nat) (pipeName : string) (mustNotExist : bool)
  | Close (i : nat)
  | IsOpen (i : nat)
  | GetName (i : nat)
  | Read (i : nat) (maxBytesToRead timeOutMilliseconds : Z)
  | Write (i : nat) (sourceBuffer : list Byte.byte)
          (numBytesToWrite timeOutMilliseconds : Z).

(** One public operation.  Constructing puts a closed object at a free
    address; destroying runs the destructor and frees the address. *)
Definition exec (o : Op) (s : System) : System :=
  match o with
  | Construct i =>
      match insts s !! i with
      | None => mkSystem (<[i := construct]> (insts s)) (os s)
      | Some _ => s
      end
  | Destroy i =>
      match call i destroy s with
      | Some (_, s') => mkSystem (delete i (insts s')) (os s')
      | None => s
      end
  | OpenExisting i n => after (call i (openExisting n) s) s
  | CreateNewPipe i n m => after (call i (createNewPipe n m) s) s
  | Close i => after (call i close s) s
  | IsOpen i => after (call i isOpen s) s
  | GetName i => after (call i getName s) s
  | Read i n t => after (call i (read n t) s) s
  | Write i b n t => after (call i (write b n t) s) s
  end.

(** A program: public operations one after the other. *)
Definition run (ops : list Op) (s : System) : System :=
  foldl (λ s o, exec o s) s ops.

(** The systems a program can be in: started on a fresh platform, whatever
    the environment will answer, and moved by public operations. *)
Inductive reachable : System → Prop :=
  | reach_init sc : reachable (init sc)
  | reach_step o s : reachable s → reachable (exec o s).

(** The answer of a call, when the object exists. *)
Definition answerOf {A} (r : option (A * System)) : option A := fst <$> r.

(** ** The lifecycle blocks of [NamedPipeTests::runTest] *)

(** [expect (pipe.f (...))] and [expect (! pipe.f (...))]: whether the
    answer is the wanted one, and the system the call leaves. *)
Definition expect (i : nat) (m : M World nat bool) (want : bool) (s : System)
    : bool * System :=
  match call i m s with
  | Some (r, s') => (bool_decide (r = want), s')
  | None => (false, s)
  end.

(** [beginTest ("Pre test cleanup")]; [pipe] lives at address 0 and is
    destroyed at the end of the block. *)
Definition preTestCleanup (pipeName : string) (s : System) : list bool * System :=
  let s := exec (Construct 0) s in
  let '(e1, s) := expect 0 (createNewPipe pipeName false) true s in
  ([e1], exec (Destroy 0) s).

(** [beginTest ("Create pipe")]; [pipe] at address 0, [otherPipe] at 1. *)
Definition createPipeTest (pipeName : string) (s : System) : list bool * System :=
  let s := exec (Construct 0) s in
  let '(e1, s) := expect 0 isOpen false s in
  let '(e2, s) := expect 0 (createNewPipe pipeName true) true s in
  let '(e3, s) := expect 0 isOpen true s in
  let '(e4, s) := expect 0 (createNewPipe pipeName false) true s in
  let '(e5, s) := expect 0 isOpen true s in
  let s := exec (Construct 1) s in
  let '(e6, s) := expect 1 (createNewPipe pipeName true) false s in
  let '(e7, s) := expect 1 isOpen false s in
  ([e1; e2; e3; e4; e5; e6; e7], exec (Destroy 0) (exec (Destroy 1) s)).

(** [beginTest ("Existing pipe")] *)
Definition existingPipeTest (pipeName : string) (s : System) : list bool * System :=
  let s := exec (Construct 0) s in
  let '(e1, s) := expect 0 (openExisting pipeName) false s in
  let '(e2, s) := expect 0 isOpen false s in
  let '(e3, s) := expect 0 (createNewPipe pipeName true) true s in
  let s := exec (Construct 1) s in
  let '(e4, s) := expect 1 (openExisting pipeName) true s in
  let '(e5, s) := expect 1 isOpen true s in
  ([e1; e2; e3; e4; e5], exec (Destroy 0) (exec (Destroy 1) s)).

(** The three blocks in the order [runTest] has them. *)
Definition lifecycleTests (pipeName : string) (s : System) : list bool * System :=
  let '(r1, s) := preTestCleanup pipeName s in
  let '(r2, s) := createPipeTest pipeName s in
  let '(r3, s) := existingPipeTest pipeName s in
  (r1 ++ r2 ++ r3, s).

(** Scenarios of [NamedPipeTests]: [pipe] at address 0 and [otherPipe] at
    address 1 on a fresh platform, and single objects in the states the
    tests put them in. *)
Definition twoPipes : System := run [Construct 0; Construct 1] (init []).

Definition freshSt : St World nat := mkSt construct (boot []) [].

Definition createdSt : St World nat := (createNewPipe "TestPipe" true freshSt).2.

(** An object that created "TestPipe" on a platform that will answer the
    transfers with [sc]. *)
Definition scriptedSt (sc : list (IOResult (list Byte.byte))) : St World nat :=
  (createNewPipe "TestPipe" true (mkSt construct (boot sc) [])).2.

Definition otherSt : St World nat := mkSt construct (drv createdSt) [].

Definition createdSys : System := exec (CreateNewPipe 0 "TestPipe" true) twoPipes.

(** Two states of the operating system with the same endpoints and names. *)
Definition sameRegistry (w w' : World) : Prop :=
  nextHandle w = nextHandle w' ∧ endpoints w = endpoints w' ∧
  owners w = owners w'.

(** What holds of every reachable system: an installed handle is an open
    endpoint of the operating system, opened under the object's name; no
    two objects hold the same handle; handles are never reused; a name
    that exists belongs to an open creating endpoint; and every open
    endpoint is held by some live object. *)
Record Inv (s : System) : Prop := mkInv {
  inv_held : ∀ i p h, insts s !! i = Some p → pimpl p = Some h →
    ∃ ep, endpoints (os s) !! h = Some ep ∧ epName ep = currentPipeName p;
  inv_excl : ∀ i j p q h, insts s !! i = Some p → insts s !! j = Some q →
    pimpl p = Some h → pimpl q = Some h → i = j;
  inv_fresh : ∀ h ep, endpoints (os s) !! h = Some ep →
    (h < nextHandle (os s))%nat;
  inv_owner : ∀ n h, owners (os s) !! n = Some h →
    ∃ ep, endpoints (os s) !! h = Some ep ∧ epName ep = n ∧ epServer ep = true;
  inv_noleak : ∀ h ep, endpoints (os s) !! h = Some ep →
    ∃ i p, insts s !! i = Some p ∧ pimpl p = Some h
}.

(** ** Programs on one object *)

(** A call of one of the public member functions on an object that stays
    alive, and what the call returns. *)
Inductive Member :=
  | MOpenExisting (pipeName : string)
  | MCreateNewPipe (pipeName : string) (mustNotExist : bool)
  | MClose
  | MIsOpen
  | MGetName
  | MRead (maxBytesToRead timeOutMilliseconds : Z)
  | MWrite (sourceBuffer : list Byte.byte)
           (numBytesToWrite timeOutMilliseconds : Z).

Inductive Answer :=
  | AVoid
  | ABool (b : bool)
  | AString (s : string)
  | ARead (count : Z) (stored : list Byte.byte)
  | AInt (count : Z).

(** [isOpen] and [getName], the two [const] member functions of the file. *)
Definition isQuery (m : Member) : bool :=
  match m with MIsOpen | MGetName => true | _ => false end.

(** The state of the member [lock] as the events show it. *)
Inductive LockState := Unlocked | ReadLocked | WriteLocked.

Section Programs.
Context {World Handle : Type} `{!PipeDriver World Handle}.

Definition runMember (m : Member) : M World Handle Answer :=
  match m with
  | MOpenExisting n => bind (openExisting n) (λ b, ret (ABool b))
  | MCreateNewPipe n x => bind (createNewPipe n x) (λ b, ret (ABool b))
  | MClose => bind close (λ _, ret AVoid)
  | MIsOpen => bind isOpen (λ b, ret (ABool b))
  | MGetName => bind getName (λ n, ret (AString n))
  | MRead k t => bind (read k t) (λ r, ret (ARead r.1 r.2))
  | MWrite b k t => bind (write b k t) (λ r, ret (AInt r))
  end.

(** The calls of a program in order, each with its answer. *)
Fixpoint runMembers (ms : list Member) (st : St World Handle)
    : list (Member * Answer) * St World Handle :=
  match ms with
  | [] => ([], st)
  | m :: ms' =>
      let '(a, st1) := runMember m st in
      let '(rest, st2) := runMembers ms' st1 in
      ((m, a) :: rest, st2)
  end.

(** The lock discipline an event has to respect: a lock is taken only when
    none is held and released by the scope that took it; the driver is asked
    to open or close only under the write lock, and to transfer only under
    the read lock. *)
Definition lockStep (l : LockState) (e : Event Handle) : option LockState :=
  match l, e with
  | Unlocked, EvReadLock => Some ReadLocked
  | ReadLocked, EvReadUnlock => Some Unlocked
  | Unlocked, EvWriteLock => Some WriteLocked
  | WriteLocked, EvWriteUnlock => Some Unlocked
  | WriteLocked, EvDriverOpen _ _ _ => Some WriteLocked
  | WriteLocked, EvDriverClose _ => Some WriteLocked
  | ReadLocked, EvDriverRead _ => Some ReadLocked
  | ReadLocked, EvDriverWrite _ => Some ReadLocked
  | _, EvDriverCancel _ => Some l
  | _, _ => None
  end.

Fixpoint lockRun (l : LockState) (tr : list (Event Handle)) : option LockState :=
  match tr with
  | [] => Some l
  | e :: tr' =>
      match lockStep l e with
      | Some l' => lockRun l' tr'
      | None => None
      end
  end.

(** Two states that differ in the events recorded at most. *)
Definition sameObject (st st' : St World Handle) : Prop :=
  self st = self st' ∧ drv st = drv st'.

End Programs.

(** ** The threads of [NamedPipeTests] *)

(** [sizeof (sendData)] and [sizeof (recvData)], the size of an [int]. *)
Definition sizeofInt : Z := 4.

(** [struct NamedPipeThread]: the member [pipe], by address, the state of
    the [WaitableEvent] behind [workCompleted], and [result].  [data] is the
    object representation of [sendData] in a [SenderThread] and of
    [recvData] in a [ReceiverThread]. *)
Record NamedPipeThread := mkThread {
  pipe : nat;
  workCompleted : bool;
  result : Z;
  data : list Byte.byte
}.

(** [NamedPipeThread::NamedPipeThread]: the member [pipe] is constructed at
    address [i], then created or opened; what the call returns is dropped.
    [int result = -2]. *)
Definition NamedPipeThread_ctor (i : nat) (pName : string)
    (shouldCreatePipe : bool) (completed : bool) (bytes : list Byte.byte)
    (s : System) : NamedPipeThread * System :=
  let s := exec (Construct i) s in
  let s := if shouldCreatePipe
           then exec (CreateNewPipe i pName false) s
           else exec (OpenExisting i pName) s in
  (mkThread i completed (-2) bytes, s).

(** [SenderThread::run]:
    [result = pipe.write (&sendData, sizeof (sendData), 2000);
     workCompleted.signal();] *)
Definition SenderThread_run (t : NamedPipeThread) (s : System)
    : NamedPipeThread * System :=
  match call (pipe t) (write (data t) sizeofInt 2000) s with
  | Some (r, s') => (mkThread (pipe t) true r (data t), s')
  | None => (t, s)
  end.

(** [ReceiverThread::run]:
    [result = pipe.read (&recvData, sizeof (recvData), 2000);
     workCompleted.signal();]  The bytes stored overwrite the front of
    [recvData]. *)
Definition ReceiverThread_run (t : NamedPipeThread) (s : System)
    : NamedPipeThread * System :=
  match call (pipe t) (read sizeofInt 2000) s with
  | Some ((r, bs), s') =>
      (mkThread (pipe t) true r (bs ++ drop (length bs) (data t)), s')
  | None => (t, s)
  end.

(** Where a block of [runTest] can start: the addresses of [pipe] and
    [otherPipe] are free and the pipe name does not exist. *)
Definition testReady (n : string) (s : System) : Prop :=
  reachable s ∧ insts s !! 0%nat = None ∧ insts s !! 1%nat = None ∧
  owners (os s) !! n = None.

(** Another live object holds the endpoint that created [n]. *)
Definition createdElsewhere (s : System) (i : nat) (n : string) : Prop :=
  ∃ j q h, j ≠ i ∧ insts s !! j = Some q ∧ pimpl q = Some h ∧
           owners (os s) !! n = Some h.

(** The object an operation is called on. *)
Definition target (o : Op) : nat :=
  match o with
  | Construct i | Destroy i | OpenExisting i _ | CreateNewPipe i _ _
  | Close i | IsOpen i | GetName i | Read i _ _ | Write i _ _ _ => i
  end.

(** ** A platform that carries bytes *)

(** Modelled from the spec: the transport of the "named, bidirectional
    byte-stream" that the platform-specific files provide.  The endpoints
    and names are those of the reference platform; in place of its script
    every open endpoint has the bytes that were written to it and that it
    has not read yet.  The world is sequential, so a call finds the bytes
    that are there when it starts and no others:
    - a write "blocks until all bytes are accepted by the driver" or "the
      timeout elapses": the bytes go to the endpoints open under the same
      name on the other side, and with nobody there the write times out;
    - a read "blocks until at least one byte is available, [maxBytes] have
      been read, the timeout elapses": it takes what has arrived, up to
      [maxBytes], and with nothing there it times out. *)
Module Stream.

Record World := mkWorld {
  registry : RefDriver.World;
  inbox : gmap nat (list Byte.byte)
}.

Definition boot : World := mkWorld (RefDriver.boot []) ∅.

(** Modelled from the spec: [driverOpen]; a new endpoint has nothing to
    read. *)
Definition open (name : string) (asServer mustNotExist : bool) (w : World)
    : option nat * World :=
  let '(r, reg) := RefDriver.open name asServer mustNotExist (registry w) in
  (r, mkWorld reg match r with
                  | Some h => <[h := []]> (inbox w)
                  | None => inbox w
                  end).

(** Modelled from the spec: [driverCancelPendingIO]. *)
Definition cancelPendingIO (h : nat) (w : World) : World :=
  mkWorld (RefDriver.cancelPendingIO h (registry w)) (inbox w).

(** Modelled from the spec: [driverClose]; what the endpoint had not read is
    dropped with it. *)
Definition closeHandle (h : nat) (w : World) : World :=
  mkWorld (RefDriver.closeHandle h (registry w)) (delete h (inbox w)).

(** An endpoint on the other side of [ep]: open under the same name, on the
    creating side if [ep] is on the opening side and conversely. *)
Definition facing (ep : Endpoint) (x : nat * Endpoint) : Prop :=
  epName x.2 = epName ep ∧ epServer x.2 ≠ epServer ep.

#[global] Instance facing_dec ep x : Decision (facing ep x).
Proof. unfold facing. apply _. Defined.

Definition peers (ep : Endpoint) (w : World) : gmap nat Endpoint :=
  filter (facing ep) (endpoints (registry w)).

(** The bytes written to endpoint [h] that it has not read yet. *)
Definition pending (h : nat) (w : World) : list Byte.byte :=
  default [] (inbox w !! h).

(** The inboxes once [buffer] has reached the endpoints facing [ep]. *)
Definition deliver (ep : Endpoint) (buffer : list Byte.byte) (w : World)
    : gmap nat (list Byte.byte) :=
  map_imap (λ h' _, Some (pending h' w ++ buffer)) (peers ep w) ∪ inbox w.

(** Modelled from the spec: [driverWrite(Handle, buffer, timeoutMs) ->
    bytesWritten | Error | TimedOut]. *)
Definition writeHandle (h : nat) (buffer : list Byte.byte) (timeoutMs : Z)
    (w : World) : IOResult Z * World :=
  match endpoints (registry w) !! h with
  | Some ep =>
      if usable h (registry w) then
        match buffer with
        | [] => (IODone 0, w)
        | _ :: _ =>
            if decide (dom (peers ep w) = ∅) then (IOTimedOut, w)
            else (IODone (Z.of_nat (length buffer)),
                  mkWorld (registry w) (deliver ep buffer w))
        end
      else (IOError, w)
  | None => (IOError, w)
  end.

(** Modelled from the spec: [driverRead(Handle, buffer, timeoutMs) ->
    bytesRead | Error | TimedOut]. *)
Definition readHandle (h : nat) (maxBytes timeoutMs : Z) (w : World)
    : IOResult (list Byte.byte) * World :=
  if usable h (registry w) then
    if maxBytes <=? 0 then (IODone [], w)
    else
      match pending h w with
      | [] => (IOTimedOut, w)
      | bs =>
          (IODone (take (Z.to_nat maxBytes) bs),
           mkWorld (registry w) (<[h := drop (Z.to_nat maxBytes) bs]> (inbox w)))
      end
  else (IOError, w).

#[global] Instance driver : PipeDriver World nat := {|
  driverOpen := open;
  driverRead := readHandle;
  driverWrite := writeHandle;
  driverCancelPendingIO := cancelPendingIO;
  driverClose := closeHandle
|}.

End Stream.

(** The objects of a program on the platform that carries bytes. *)
Record StreamSystem := mkStreamSystem {
  sInsts : gmap nat (NamedPipe nat);
  sOs : Stream.World
}.

Definition streamInit : StreamSystem := mkStreamSystem ∅ Stream.boot.

(** Calling member function [m] on the object at address [i]. *)
Definition streamCall {A} (i : nat) (m : M Stream.World nat A) (s : StreamSystem)
    : option (A * StreamSystem) :=
  match sInsts s !! i with
  | Some p =>
      let '(r, st) := m (mkSt p (sOs s) []) in
      Some (r, mkStreamSystem (<[i := self st]> (sInsts s)) (drv st))
  | None => None
  end.

Definition streamAfter {A} (r : option (A * StreamSystem)) (s : StreamSystem)
    : StreamSystem :=
  match r with Some (_, s') => s' | None => s end.

(** One public operation, as [exec] has it. *)
Definition streamExec (o : Op) (s : StreamSystem) : StreamSystem :=
  match o with
  | Construct i =>
      match sInsts s !! i with
      | None => mkStreamSystem (<[i := construct]> (sInsts s)) (sOs s)
      | Some _ => s
      end
  | Destroy i =>
      match streamCall i destroy s with
      | Some (_, s') => mkStreamSystem (delete i (sInsts s')) (sOs s')
      | None => s
      end
  | OpenExisting i n => streamAfter (streamCall i (openExisting n) s) s
  | CreateNewPipe i n m => streamAfter (streamCall i (createNewPipe n m) s) s
  | Close i => streamAfter (streamCall i close s) s
  | IsOpen i => streamAfter (streamCall i isOpen s) s
  | GetName i => streamAfter (streamCall i getName s) s
  | Read i n t => streamAfter (streamCall i (read n t) s) s
  | Write i b n t => streamAfter (streamCall i (write b n t) s) s
  end.

Definition streamRun (ops : list Op) (s : StreamSystem) : StreamSystem :=
  foldl (λ s o, streamExec o s) s ops.

Inductive streamReachable : StreamSystem → Prop :=
  | sreach_init : streamReachable streamInit
  | sreach_step o s : streamReachable s → streamReachable (streamExec o s).

(** The endpoints and names of a system, without the bytes. *)
Definition registryOf (s : StreamSystem) : System :=
  mkSystem (sInsts s) (Stream.registry (sOs s)).

(** What holds of every reachable system that carries bytes: the invariant
    of the reference platform, and no endpoint left cancelled. *)
Definition StreamInv (s : StreamSystem) : Prop :=
  Inv (registryOf s) ∧ cancelled (Stream.registry (sOs s)) = ∅.

(** A write of [sent] on the object at [from] followed by a read of at most
    [maxBytes] on the object at [to]: what the write returns, and what the
    read returns and stores. *)
Definition writeThenRead (s : StreamSystem) (from to : nat)
    (sent : list Byte.byte) (maxBytes writeTimeout readTimeout : Z)
    : option (Z * (Z * list Byte.byte)) :=
  match streamCall from (write sent (Z.of_nat (length sent)) writeTimeout) s with
  | Some (written, s') =>
      match streamCall to (read maxBytes readTimeout) s' with
      | Some (r, _) => Some (written, r)
      | None => None
      end
  | None => None
  end.

(** The two ends of the receive and send blocks of [runTest]: two objects,
    then the object at address 0 has created "TestPipe", then the object at
    address 1 has opened it. *)
Definition twoStreamPipes : StreamSystem :=
  streamRun [Construct 0; Construct 1] streamInit.

Definition createdPair : StreamSystem :=
  streamExec (CreateNewPipe 0 "TestPipe" true) twoStreamPipes.

Definition connectedPair : StreamSystem :=
  streamExec (OpenExisting 1 "TestPipe") createdPair.

(** ** The member functions, step by step *)

Section Lifecycle.
Context {World Handle : Type} `{!PipeDriver World Handle}.
Implicit Types (st : St World Handle) (n : string) (h : Handle).

Lemma close_spec st :
  close st = (tt, mkSt (mkNamedPipe (currentPipeName (self st)) None)
                       (closeWorld (pimpl (self st)) (drv st))
                       (trace st ++ closeEvents (pimpl (self st)))).
Proof.
  destruct st as [[nm [h|]] w tr]; cbn.
  - unfold close, bind, getPimpl; cbn. by rewrite <- !app_assoc.
  - by rewrite app_nil_r.
Qed.

Lemma close_closed st : pimpl (self st) = None → close st = (tt, st).
Proof.
  intros Hp. rewrite close_spec, Hp; cbn.
  destruct st as [[nm p] w tr]; cbn in *. by rewrite Hp, app_nil_r.
Qed.

Lemma close_pimpl st : pimpl (self (close st).2) = None.
Proof. by rewrite close_spec. Qed.

(** What the locked block of [openExisting] and [createNewPipe] does on a
    closed object. *)
Lemma attempt_spec n (srv excl : bool) st :
  pimpl (self st) = None →
  scopedWriteLock (bind (setCurrentPipeName n) (λ _, openInternal n srv excl)) st
  = let '(r, w) := driverOpen n srv excl (drv st) in
    (notNull r,
     mkSt (mkNamedPipe n r) w
          (trace st ++ [EvWriteLock; EvDriverOpen n srv excl; EvWriteUnlock])).
Proof.
  intros Hp. destruct st as [[nm p] w tr]; cbn in *; subst p.
  unfold scopedWriteLock, openInternal, bind, onDriver; cbn.
  destruct (driverOpen n srv excl w) as [[h|] w']; cbn;
    by rewrite <- !app_assoc.
Qed.

Lemma openExisting_spec n st :
  openExisting n st
  = let st1 := (close st).2 in
    let '(r, w) := driverOpen n false false (drv st1) in
    (notNull r,
     mkSt (mkNamedPipe n r) w
          (trace st1 ++ [EvWriteLock; EvDriverOpen n false false; EvWriteUnlock])).
Proof.
  unfold openExisting, bind at 1.
  destruct (close st) as [[] st1] eqn:Hc; cbn.
  apply attempt_spec. by rewrite <- (close_pimpl st), Hc.
Qed.

Lemma createNewPipe_spec n (m : bool) st :
  createNewPipe n m st
  = let st1 := (close st).2 in
    let '(r, w) := driverOpen n true m (drv st1) in
    (notNull r,
     mkSt (mkNamedPipe n r) w
          (trace st1 ++ [EvWriteLock; EvDriverOpen n true m; EvWriteUnlock])).
Proof.
  unfold createNewPipe, bind at 1.
  destruct (close st) as [[] st1] eqn:Hc; cbn.
  apply attempt_spec. by rewrite <- (close_pimpl st), Hc.
Qed.

Lemma isOpen_spec st :
  isOpen st = (notNull (pimpl (self st)),
               mkSt (self st) (drv st) (trace st ++ [EvReadLock; EvReadUnlock])).
Proof. unfold isOpen, scopedReadLock, bind; cbn. by rewrite <- app_assoc. Qed.

Lemma getName_spec st :
  getName st = (currentPipeName (self st),
                mkSt (self st) (drv st) (trace st ++ [EvReadLock; EvReadUnlock])).
Proof. unfold getName, scopedReadLock, bind; cbn. by rewrite <- app_assoc. Qed.

Lemma read_spec (maxBytes timeout : Z) st :
  read maxBytes timeout st
  = match pimpl (self st) with
    | None =>
        ((-1, []), mkSt (self st) (drv st) (trace st ++ [EvReadLock; EvReadUnlock]))
    | Some h =>
        let '(r, w) := driverRead h maxBytes timeout (drv st) in
        (match r with
         | IODone bs => (Z.of_nat (length bs), bs)
         | IOError | IOTimedOut => (-1, [])
         end,
         mkSt (self st) w (trace st ++ [EvReadLock; EvDriverRead h; EvReadUnlock]))
    end.
Proof.
  unfold read, scopedReadLock, bind, getPimpl, onDriver; cbn.
  destruct (pimpl (self st)) as [h|]; cbn; [|by rewrite <- app_assoc].
  destruct (driverRead h maxBytes timeout (drv st)) as [[bs| |] w]; cbn;
    by rewrite <- !app_assoc.
Qed.

Lemma write_spec (buffer : list Byte.byte) (numBytes timeout : Z) st :
  write buffer numBytes timeout st
  = match pimpl (self st) with
    | None =>
        (-1, mkSt (self st) (drv st) (trace st ++ [EvReadLock; EvReadUnlock]))
    | Some h =>
        let '(r, w) :=
          driverWrite h (take (Z.to_nat numBytes) buffer) timeout (drv st) in
        (match r with
         | IODone k => k
         | IOError | IOTimedOut => -1
         end,
         mkSt (self st) w (trace st ++ [EvReadLock; EvDriverWrite h; EvReadUnlock]))
    end.
Proof.
  unfold write, scopedReadLock, bind, getPimpl, onDriver; cbn.
  destruct (pimpl (self st)) as [h|]; cbn; [|by rewrite <- app_assoc].
  destruct (driverWrite h _ timeout (drv st)) as [[k| |] w]; cbn;
    by rewrite <- !app_assoc.
Qed.

End Lifecycle.

(** ** The invariant of the reference platform *)

Section Invariant.
Implicit Types (s : System) (i j : nat) (p q : NamedPipe nat) (h : nat)
  (n : string) (w : World).

Lemma call_close s i p :
  insts s !! i = Some p →
  call i close s
  = Some (tt, mkSystem (<[i := mkNamedPipe (currentPipeName p) None]> (insts s))
                       (closeWorld (pimpl p) (os s))).
Proof. intros Hi. unfold call. by rewrite Hi, close_spec. Qed.

Lemma call_openExisting s i p n :
  insts s !! i = Some p →
  call i (openExisting n) s
  = let '(r, w) := open n false false (closeWorld (pimpl p) (os s)) in
    Some (notNull r, mkSystem (<[i := mkNamedPipe n r]> (insts s)) w).
Proof.
  intros Hi. unfold call. rewrite Hi, openExisting_spec, close_spec; cbn.
  by destruct (open n false false _) as [r w].
Qed.

Lemma call_createNewPipe s i p n (m : bool) :
  insts s !! i = Some p →
  call i (createNewPipe n m) s
  = let '(r, w) := open n true m (closeWorld (pimpl p) (os s)) in
    Some (notNull r, mkSystem (<[i := mkNamedPipe n r]> (insts s)) w).
Proof.
  intros Hi. unfold call. rewrite Hi, createNewPipe_spec, close_spec; cbn.
  by destruct (open n true m _) as [r w].
Qed.

(** Whether a lookup in an updated table of objects hits the update. *)
Ltac insert_cases H i j :=
  destruct (decide (i = j)) as [->|?];
  [rewrite lookup_insert_eq in H | rewrite lookup_insert_ne in H by done].

Lemma inv_init sc : Inv (init sc).
Proof. split; cbn; intros *; by rewrite ?lookup_empty. Qed.

(** Storing a closed object at an address that is free, or that holds a
    closed object, disturbs nothing. *)
Lemma inv_insert_closed s i n :
  Inv s → (∀ p, insts s !! i = Some p → pimpl p = None) →
  Inv (mkSystem (<[i := mkNamedPipe n None]> (insts s)) (os s)).
Proof.
  intros [Hh He Hf Ho Hl] Hi. split; cbn.
  - intros j p h Hj Hp. insert_cases Hj i j; [by simplify_eq | eauto].
  - intros j k p q h Hj Hk Hp Hq.
    insert_cases Hj i j; [by simplify_eq|].
    insert_cases Hk i k; [by simplify_eq | eauto].
  - done.
  - done.
  - intros h ep Hep. destruct (Hl h ep Hep) as (j & p & Hj & Hp).
    exists j, p. split; [|done].
    rewrite lookup_insert_ne; [done|]. intros ->.
    apply Hi in Hj. congruence.
Qed.

Lemma inv_delete s i p :
  Inv s → insts s !! i = Some p → pimpl p = None →
  Inv (mkSystem (delete i (insts s)) (os s)).
Proof.
  intros [Hh He Hf Ho Hl] Hi Hn. split; cbn.
  - intros j q h [_ Hj]%lookup_delete_Some Hq. eauto.
  - intros j k q r h [_ Hj]%lookup_delete_Some [_ Hk]%lookup_delete_Some. eauto.
  - done.
  - done.
  - intros h ep Hep. destruct (Hl h ep Hep) as (j & q & Hj & Hq).
    exists j, q. split; [|done].
    apply lookup_delete_Some. split; [|done]. intros ->. congruence.
Qed.

(** Closing an open object releases its endpoint and, if the endpoint
    created its name, the name. *)
Lemma inv_release s i p h :
  Inv s → insts s !! i = Some p → pimpl p = Some h →
  Inv (mkSystem (<[i := mkNamedPipe (currentPipeName p) None]> (insts s))
                (closeHandle h (cancelPendingIO h (os s)))).
Proof.
  intros [Hh He Hf Ho Hl] Hi Hp.
  destruct (Hh i p h Hi Hp) as (ep & Hep & Hname).
  assert (Hother : ∀ j q h', insts s !! j = Some q → pimpl q = Some h' →
                             i ≠ j → h' ≠ h).
  { intros j q h' Hj Hq Hne ->. by apply Hne, (He i j p q h). }
  unfold cancelPendingIO, closeHandle, release. rewrite Hep; cbn. rewrite Hep.
  split; cbn.
  - intros j q h' Hj Hq. insert_cases Hj i j; [by simplify_eq|].
    rewrite lookup_delete_ne by (symmetry; eauto). eauto.
  - intros j k q r h' Hj Hk Hq Hr.
    insert_cases Hj i j; [by simplify_eq|].
    insert_cases Hk i k; [by simplify_eq | eauto].
  - intros h' ep' [_ Hep']%lookup_delete_Some. eauto.
  - intros n h' Hn.
    assert (owners (os s) !! n = Some h' ∧ h' ≠ h) as [Hn' Hne].
    { destruct (decide (owners (os s) !! epName ep = Some h)) as [Hown|Hown].
      - apply lookup_delete_Some in Hn as [Hnn Hn]. split; [done|].
        intros ->. destruct (Ho n h Hn) as (ep' & Hep' & Hn' & _).
        congruence.
      - split; [done|]. intros ->.
        destruct (Ho n h Hn) as (ep' & Hep' & Hn' & _).
        apply Hown. congruence. }
    rewrite lookup_delete_ne by done. eauto.
  - intros h' ep' [Hne Hep']%lookup_delete_Some.
    destruct (Hl h' ep' Hep') as (j & q & Hj & Hq).
    exists j, q. split; [|done].
    rewrite lookup_insert_ne; [done|]. intros ->. congruence.
Qed.

(** The driver's answer to an open request, on a closed object. *)
Lemma inv_attempt s i p n (srv excl : bool) r w :
  Inv s → insts s !! i = Some p → pimpl p = None →
  open n srv excl (os s) = (r, w) →
  Inv (mkSystem (<[i := mkNamedPipe n r]> (insts s)) w).
Proof.
  intros HI Hi Hp Hopen.
  assert (Hfail : Inv (mkSystem (<[i := mkNamedPipe n None]> (insts s)) (os s))).
  { apply inv_insert_closed; [done|]. intros q Hq. congruence. }
  assert (Hok : ∀ own,
    (own = owners (os s) ∨
     (own = <[n := nextHandle (os s)]> (owners (os s)) ∧ srv = true)) →
    connect n srv own (os s) = (r, w) →
    Inv (mkSystem (<[i := mkNamedPipe n r]> (insts s)) w)).
  { clear Hopen Hfail. destruct HI as [Hh He Hf Ho Hl].
    intros own Hown Hc. unfold connect in Hc. simplify_eq.
    assert (Hlt : ∀ j q h, insts s !! j = Some q → pimpl q = Some h →
                           (h < nextHandle (os s))%nat).
    { intros j q h Hj Hq. destruct (Hh j q h Hj Hq) as (ep & Hep & _). eauto. }
    split; cbn.
    - intros j q h Hj Hq. insert_cases Hj i j.
      + simplify_eq; cbn in *. simplify_eq. rewrite lookup_insert_eq. eauto.
      + rewrite lookup_insert_ne by (specialize (Hlt j q h Hj Hq); lia). eauto.
    - intros j k q q' h Hj Hk Hq Hq'.
      destruct (decide (j = k)) as [|Hjk]; [done|]. exfalso.
      insert_cases Hj i j.
      + rewrite lookup_insert_ne in Hk by done.
        simplify_eq; cbn in *. simplify_eq.
        specialize (Hlt k q' _ Hk Hq'). lia.
      + insert_cases Hk i k; [|eauto].
        simplify_eq; cbn in *. simplify_eq.
        specialize (Hlt j q _ Hj Hq). lia.
    - intros h ep. rewrite lookup_insert.
      case_decide; [intros; lia|]. intros Hep%Hf. lia.
    - intros n' h Hn'.
      destruct Hown as [->|[-> ->]].
      + destruct (Ho n' h Hn') as (ep & Hep & Hnm).
        rewrite lookup_insert_ne by (apply Hf in Hep; lia). eauto.
      + rewrite lookup_insert in Hn'. case_decide.
        * simplify_eq. rewrite lookup_insert_eq. eauto.
        * destruct (Ho n' h Hn') as (ep & Hep & Hnm).
          rewrite lookup_insert_ne by (apply Hf in Hep; lia). eauto.
    - intros h ep. rewrite lookup_insert. case_decide.
      + intros _. subst h. eexists i, _. by rewrite lookup_insert_eq.
      + intros Hep. destruct (Hl h ep Hep) as (j & q & Hj & Hq).
        exists j, q. split; [|done].
        rewrite lookup_insert_ne; [done|]. intros ->. congruence. }
  unfold open in Hopen.
  destruct (owners (os s) !! n) as [h0|] eqn:Hn.
  - destruct (srv && excl) eqn:Hse.
    + by simplify_eq.
    + eapply Hok; [|done]. by left.
  - destruct srv.
    + eapply Hok; [|done]. by right.
    + by simplify_eq.
Qed.

Lemma inv_registry s w : Inv s → sameRegistry w (os s) → Inv (mkSystem (insts s) w).
Proof.
  intros [Hh He Hf Ho Hl] (Hn & Hep & Hown).
  split; cbn; rewrite ?Hn, ?Hep, ?Hown; done.
Qed.

Lemma answer_registry h w : sameRegistry (answer h w).2 w.
Proof.
  unfold answer. destruct (usable h w); [|done].
  by destruct (script w).
Qed.

(** A member function that leaves the object alone and the registry of
    the operating system as it was. *)
Lemma inv_observer {A} (m : M World nat A) s i :
  (∀ st, self (m st).2 = self st ∧ sameRegistry (drv (m st).2) (drv st)) →
  Inv s → Inv (after (call i m s) s).
Proof.
  intros Hm HI. unfold call.
  destruct (insts s !! i) as [p|] eqn:Hi; [|done].
  destruct (Hm (mkSt p (os s) [])) as [Hself Hreg].
  destruct (m _) as [r st]; cbn in *. rewrite Hself, insert_id by done.
  by apply (inv_registry s).
Qed.

Lemma inv_close s i : Inv s → Inv (after (call i close s) s).
Proof.
  intros HI. destruct (insts s !! i) as [p|] eqn:Hi.
  - rewrite (call_close s i p Hi); cbn.
    destruct (pimpl p) as [h|] eqn:Hp; cbn.
    + by apply inv_release.
    + apply inv_insert_closed; [done|]. intros q Hq. congruence.
  - unfold call. by rewrite Hi.
Qed.

Lemma inv_open s i p n (srv excl : bool) r w :
  Inv s → insts s !! i = Some p →
  open n srv excl (closeWorld (pimpl p) (os s)) = (r, w) →
  Inv (mkSystem (<[i := mkNamedPipe n r]> (insts s)) w).
Proof.
  intros HI Hi Hopen.
  pose proof (inv_close s i HI) as H1. rewrite (call_close s i p Hi) in H1.
  cbn in H1.
  pose proof (inv_attempt _ i (mkNamedPipe (currentPipeName p) None)
                n srv excl r w H1) as H2.
  cbn in H2. rewrite lookup_insert_eq, insert_insert_eq in H2. by apply H2.
Qed.

Lemma inv_exec o s : Inv s → Inv (exec o s).
Proof.
  intros HI. destruct o as [i|i|i n|i n m|i|i|i|i k t|i b k t]; cbn.
  - destruct (insts s !! i) eqn:Hi; [done|].
    apply inv_insert_closed; [done|]. intros p Hp. congruence.
  - pose proof (inv_close s i HI) as H1. unfold destroy.
    destruct (insts s !! i) as [p|] eqn:Hi.
    + rewrite (call_close s i p Hi) in *. cbn in *.
      pose proof (inv_delete _ i (mkNamedPipe (currentPipeName p) None) H1) as H2.
      cbn in H2. rewrite lookup_insert_eq, delete_insert_eq in H2.
      rewrite delete_insert_eq. by apply H2.
    + unfold call. by rewrite Hi.
  - destruct (insts s !! i) as [p|] eqn:Hi.
    + rewrite (call_openExisting s i p n Hi).
      destruct (open n false false _) as [r w] eqn:Hopen; cbn.
      by eapply inv_open.
    + unfold call. by rewrite Hi.
  - destruct (insts s !! i) as [p|] eqn:Hi.
    + rewrite (call_createNewPipe s i p n m Hi).
      destruct (open n true m _) as [r w] eqn:Hopen; cbn.
      by eapply inv_open.
    + unfold call. by rewrite Hi.
  - by apply inv_close.
  - apply inv_observer; [|done]. intros st. by rewrite isOpen_spec.
  - apply inv_observer; [|done]. intros st. by rewrite getName_spec.
  - apply inv_observer; [|done]. intros st. rewrite read_spec.
    destruct (pimpl (self st)) as [h|]; [|done]. cbn. unfold readHandle.
    pose proof (answer_registry h (drv st)) as Hreg.
    by destruct (answer h (drv st)) as [[] w].
  - apply inv_observer; [|done]. intros st. rewrite write_spec.
    destruct (pimpl (self st)) as [h|]; [|done]. cbn. unfold writeHandle.
    pose proof (answer_registry h (drv st)) as Hreg.
    by destruct (answer h (drv st)) as [[] w].
Qed.

Lemma reachable_inv s : reachable s → Inv s.
Proof. induction 1; [apply inv_init | by apply inv_exec]. Qed.

End Invariant.

(** ** Properties of a single object, on any platform driver *)

Section Claims.
Context {World Handle : Type} `{!PipeDriver World Handle}.
Implicit Types (st : St World Handle) (n : string) (h : Handle).

(** C2: after a successful [openExisting] or [createNewPipe], [isOpen]
    answers true; after [close] it answers false; and [close] on an
    object that is already closed changes nothing at all, so that closing
    twice is the same as closing once. *)
Theorem isOpen_follows_lifecycle st :
  (∀ n st', openExisting n st = (true, st') → (isOpen st').1 = true) ∧
  (∀ n m st', createNewPipe n m st = (true, st') → (isOpen st').1 = true) ∧
  (isOpen (close st).2).1 = false ∧
  ((isOpen st).1 = false → close st = (tt, st)) ∧
  close (close st).2 = close st.
Proof.
  repeat split.
  - intros n st'. rewrite openExisting_spec, isOpen_spec; cbn.
    destruct (driverOpen _ _ _ _) as [[h|] w]; [|done].
    by intros [= <-].
  - intros n m st'. rewrite createNewPipe_spec, isOpen_spec; cbn.
    destruct (driverOpen _ _ _ _) as [[h|] w]; [|done].
    by intros [= <-].
  - by rewrite isOpen_spec, close_pimpl.
  - rewrite isOpen_spec; cbn. intros Hp. apply close_closed.
    by destruct (pimpl (self st)).
  - rewrite (close_closed (close st).2) by apply close_pimpl.
    by destruct (close st) as [[] st1].
Qed.

(** C3: after [openExisting n] or [createNewPipe n m], whatever the call
    returned, [getName] answers [n]. *)
Theorem getName_after_open n (m : bool) st :
  (getName (openExisting n st).2).1 = n ∧
  (getName (createNewPipe n m st).2).1 = n.
Proof.
  rewrite !getName_spec, openExisting_spec, createNewPipe_spec; cbn.
  destruct (driverOpen n false false _) as [r1 w1].
  by destruct (driverOpen n true m _) as [r2 w2].
Qed.

(** C5: [openExisting] and [createNewPipe] first run [close] — which
    changes nothing when the object is closed and is idempotent — and
    only then take the write lock, inside which the driver is asked to
    open on the operating system that [close] left behind. *)
Theorem open_closes_first n (m : bool) st :
  let st1 := (close st).2 in
  ((isOpen st).1 = false → st1 = st) ∧
  (close st1).2 = st1 ∧
  openExisting n st
    = scopedWriteLock (bind (setCurrentPipeName n)
                            (λ _, openInternal n false false)) st1 ∧
  createNewPipe n m st
    = scopedWriteLock (bind (setCurrentPipeName n)
                            (λ _, openInternal n true m)) st1 ∧
  trace (openExisting n st).2
    = trace st ++ closeEvents (pimpl (self st))
        ++ [EvWriteLock; EvDriverOpen n false false; EvWriteUnlock] ∧
  trace (createNewPipe n m st).2
    = trace st ++ closeEvents (pimpl (self st))
        ++ [EvWriteLock; EvDriverOpen n true m; EvWriteUnlock] ∧
  (openExisting n st).1
    = notNull (driverOpen n false false (drv st1)).1 ∧
  (createNewPipe n m st).1
    = notNull (driverOpen n true m (drv st1)).1.
Proof.
  cbv zeta. repeat split.
  - rewrite isOpen_spec. intros Hp. cbn in Hp.
    rewrite close_closed; [done|]. by destruct (pimpl (self st)).
  - by rewrite (close_closed (close st).2) by apply close_pimpl.
  - unfold openExisting, bind at 1. by destruct (close st) as [[] st1].
  - unfold createNewPipe, bind at 1. by destruct (close st) as [[] st1].
  - rewrite openExisting_spec, close_spec; cbn.
    destruct (driverOpen _ _ _ _) as [r w]; cbn. by rewrite app_assoc.
  - rewrite createNewPipe_spec, close_spec; cbn.
    destruct (driverOpen _ _ _ _) as [r w]; cbn. by rewrite app_assoc.
  - rewrite openExisting_spec; cbn. by destruct (driverOpen _ _ _ _).
  - rewrite createNewPipe_spec; cbn. by destruct (driverOpen _ _ _ _).
Qed.

(** C6: on an object with no handle, [read] and [write] return -1 at
    once: the driver is not called, the operating system is left as it
    was, and the only events are taking and dropping the read lock. *)
Theorem io_without_handle (buffer : list Byte.byte) (numBytes timeout : Z) st :
  pimpl (self st) = None →
  read numBytes timeout st
    = ((-1, []), mkSt (self st) (drv st) (trace st ++ [EvReadLock; EvReadUnlock])) ∧
  write buffer numBytes timeout st
    = (-1, mkSt (self st) (drv st) (trace st ++ [EvReadLock; EvReadUnlock])).
Proof. intros Hp. by rewrite read_spec, write_spec, Hp. Qed.

(** C10: when [openExisting] or [createNewPipe] fails on an object that
    held handle [h], the object ends up closed: [h] was cancelled and
    closed before the driver was asked to open, and nothing restores it. *)
Theorem failed_open_leaves_closed n (m : bool) st h :
  pimpl (self st) = Some h →
  (∀ st', openExisting n st = (false, st') →
     (isOpen st').1 = false ∧ pimpl (self st') = None ∧
     drv st' = (driverOpen n false false
                  (driverClose h (driverCancelPendingIO h (drv st)))).2 ∧
     trace st' = trace st
       ++ [EvDriverCancel h; EvWriteLock; EvDriverClose h; EvWriteUnlock]
       ++ [EvWriteLock; EvDriverOpen n false false; EvWriteUnlock]) ∧
  (∀ st', createNewPipe n m st = (false, st') →
     (isOpen st').1 = false ∧ pimpl (self st') = None ∧
     drv st' = (driverOpen n true m
                  (driverClose h (driverCancelPendingIO h (drv st)))).2 ∧
     trace st' = trace st
       ++ [EvDriverCancel h; EvWriteLock; EvDriverClose h; EvWriteUnlock]
       ++ [EvWriteLock; EvDriverOpen n true m; EvWriteUnlock]).
Proof.
  intros Hp. split; intros st'.
  - rewrite openExisting_spec, close_spec, isOpen_spec, Hp; cbn.
    destruct (driverOpen _ _ _ _) as [[h'|] w]; [done|].
    intros [= <-]; cbn. by rewrite <- app_assoc.
  - rewrite createNewPipe_spec, close_spec, isOpen_spec, Hp; cbn.
    destruct (driverOpen _ _ _ _) as [[h'|] w]; [done|].
    intros [= <-]; cbn. by rewrite <- app_assoc.
Qed.

End Claims.

(** ** Properties of the objects sharing the reference platform *)

Section SystemClaims.
Implicit Types (s : System) (i j a b : nat) (p q : NamedPipe nat) (h : nat)
  (n : string) (w : World).

Lemma reachable_run ops s : reachable s → reachable (run ops s).
Proof.
  revert s. induction ops as [|o ops IH]; intros s Hs; [done|].
  cbn. apply IH. by constructor.
Qed.

(** An exclusive creation that succeeds makes the new handle the owner of
    the name. *)
Lemma exclusive_success w n r w' :
  open n true true w = (r, w') → notNull r = true →
  r = Some (nextHandle w) ∧ owners w' !! n = Some (nextHandle w).
Proof.
  unfold open, connect. destruct (owners w !! n); cbn; intros [= <- <-]; [done|].
  intros _. cbn. by rewrite lookup_insert_eq.
Qed.

(** An exclusive creation of a name that exists fails and changes nothing. *)
Lemma exclusive_conflict w n h :
  owners w !! n = Some h → open n true true w = (None, w).
Proof. intros Hn. unfold open. by rewrite Hn. Qed.

(** Closing one object does not take a name away from another object's
    handle. *)
Lemma owner_survives s j q n h :
  Inv s → insts s !! j = Some q → owners (os s) !! n = Some h →
  pimpl q ≠ Some h →
  owners (closeWorld (pimpl q) (os s)) !! n = Some h.
Proof.
  intros HI Hj Hn Hne. destruct (pimpl q) as [hb|] eqn:Hq; [|done]. cbn.
  destruct (inv_held s HI j q hb Hj Hq) as (ep & Hep & _).
  unfold closeHandle, release, cancelPendingIO. rewrite Hep; cbn. rewrite Hep.
  case_decide as Hown; [|done].
  rewrite lookup_delete_ne; [done|]. intros Heq. rewrite Heq in Hown. congruence.
Qed.

(** C1: in any reachable system, once [createNewPipe n true] has
    succeeded on object [a], the same call on another object [b] returns
    false and leaves [b] closed. *)
Theorem exclusive_creator_unique s a b n s1 :
  reachable s → a ≠ b → is_Some (insts s !! b) →
  call a (createNewPipe n true) s = Some (true, s1) →
  ∃ s2, call b (createNewPipe n true) s1 = Some (false, s2) ∧
        answerOf (call b isOpen s2) = Some false.
Proof.
  intros Hs Hab [q Hb] Hcall.
  assert (Hs1 : reachable s1).
  { replace s1 with (exec (CreateNewPipe a n true) s); [by constructor|].
    cbn. by rewrite Hcall. }
  apply reachable_inv in Hs, Hs1.
  destruct (insts s !! a) as [p|] eqn:Ha; [|by unfold call in Hcall; rewrite Ha in Hcall].
  rewrite (call_createNewPipe s a p n true Ha) in Hcall.
  destruct (open n true true _) as [r w] eqn:Hopen. simplify_eq.
  destruct (exclusive_success _ _ _ _ Hopen) as [-> Hown]; [done|].
  set (h := nextHandle (closeWorld (pimpl p) (os s))) in *.
  set (s1 := mkSystem (<[a := mkNamedPipe n (Some h)]> (insts s)) w) in *.
  assert (Hb1 : insts s1 !! b = Some q) by (cbn; by rewrite lookup_insert_ne).
  assert (Hqh : pimpl q ≠ Some h).
  { intros Hq. apply Hab.
    apply (inv_excl s1 Hs1 a b (mkNamedPipe n (Some h)) q h); [|done..].
    cbn. by rewrite lookup_insert_eq. }
  pose proof (owner_survives s1 b q n h Hs1 Hb1 Hown Hqh) as Hstill.
  rewrite (call_createNewPipe s1 b q n true Hb1).
  rewrite (exclusive_conflict _ n h Hstill). eexists. split; [done|].
  unfold call, answerOf; cbn. by rewrite lookup_insert_eq.
Qed.

(** C4: in every reachable system and for every live object, [isOpen]
    answers true exactly when a handle is installed; and an installed
    handle is an open endpoint of the operating system, opened under the
    name that [getName] answers. *)
Theorem handle_iff_open s i p :
  reachable s → insts s !! i = Some p →
  (answerOf (call i isOpen s) = Some true ↔ ∃ h, pimpl p = Some h) ∧
  (answerOf (call i isOpen s) = Some false ↔ pimpl p = None) ∧
  (∀ h, pimpl p = Some h →
     ∃ ep, endpoints (os s) !! h = Some ep ∧
           answerOf (call i getName s) = Some (epName ep)).
Proof.
  intros Hs%reachable_inv Hi. unfold call, answerOf. rewrite Hi.
  rewrite isOpen_spec, getName_spec; cbn. repeat split.
  - destruct (pimpl p); [eauto|done].
  - intros [h ->]. done.
  - by destruct (pimpl p).
  - by intros ->.
  - intros h Hp. destruct (inv_held s Hs i p h Hi Hp) as (ep & Hep & <-). eauto.
Qed.

(** C9: destroying an object that holds handle [h] does to the operating
    system what [close] does: exactly the endpoint [h], which was open,
    is released; the object is gone; and no open endpoint is left without
    a live object holding it. *)
Theorem destruction_releases_handle s i p h :
  reachable s → insts s !! i = Some p → pimpl p = Some h →
  let s' := exec (Destroy i) s in
  os s' = os (exec (Close i) s) ∧
  is_Some (endpoints (os s) !! h) ∧
  endpoints (os s') = delete h (endpoints (os s)) ∧
  size (endpoints (os s)) = S (size (endpoints (os s'))) ∧
  insts s' = delete i (insts s) ∧
  (∀ h' ep, endpoints (os s') !! h' = Some ep →
     ∃ j q, insts s' !! j = Some q ∧ pimpl q = Some h').
Proof.
  intros Hs Hi Hp s'.
  assert (Hs' : Inv s') by (apply reachable_inv; by constructor).
  apply reachable_inv in Hs.
  destruct (inv_held s Hs i p h Hi Hp) as (ep & Hep & _).
  assert (Hend : endpoints (os s') = delete h (endpoints (os s))).
  { subst s'. cbn. unfold destroy. rewrite (call_close s i p Hi), Hp; cbn.
    unfold cancelPendingIO. by rewrite Hep. }
  repeat split.
  - subst s'. cbn. unfold destroy. by rewrite (call_close s i p Hi).
  - eauto.
  - done.
  - rewrite Hend. rewrite map_size_delete, Hep.
    assert (size (endpoints (os s)) ≠ 0%nat); [|lia].
    intros Hz%map_size_empty_iff. by rewrite Hz, lookup_empty in Hep.
  - subst s'. cbn. unfold destroy. rewrite (call_close s i p Hi); cbn.
    by rewrite delete_insert_eq.
  - apply (inv_noleak s' Hs').
Qed.

End SystemClaims.

(** ** The unit test on the reference platform *)

(** Every expectation of the three lifecycle blocks of [NamedPipeTests] is
    met, and the blocks leave the platform with no object, no endpoint and
    no name. *)
Example lifecycleTests_pass :
  (lifecycleTests "TestPipe" (init [])).1 = replicate 13 true ∧
  insts (lifecycleTests "TestPipe" (init [])).2 = ∅ ∧
  endpoints (os (lifecycleTests "TestPipe" (init [])).2) = ∅ ∧
  owners (os (lifecycleTests "TestPipe" (init [])).2) = ∅.
Proof. vm_compute. by repeat split. Qed.

(** On an open object the transfers return what the driver answers: the
    bytes that arrived, cut to the size asked for, or -1. *)
Example transfers_on_open_pipe :
  let data := [Byte.x01; Byte.x02; Byte.x03; Byte.x04; Byte.x05] in
  (read 4 2000 (scriptedSt [IODone data])).1
    = (4, [Byte.x01; Byte.x02; Byte.x03; Byte.x04]) ∧
  (read 4 2000 (scriptedSt [IOTimedOut])).1 = (-1, []) ∧
  (read 4 2000 (scriptedSt [])).1 = (-1, []) ∧
  (write data 4 2000 (scriptedSt [IODone []])).1 = 4 ∧
  (write data 4 2000 (scriptedSt [IOError])).1 = -1 ∧
  (read 4 2000 (close (scriptedSt [IODone data])).2).1 = (-1, []).
Proof. vm_compute. by repeat split. Qed.

(** ** The theorems at work on the scenarios of the unit test *)

Lemma isOpen_follows_lifecycle_witness :
  (isOpen (openExisting "TestPipe" otherSt).2).1 = true ∧
  (isOpen (createNewPipe "TestPipe" true freshSt).2).1 = true ∧
  close freshSt = (tt, freshSt).
Proof.
  destruct (isOpen_follows_lifecycle otherSt) as (Hopen & _).
  destruct (isOpen_follows_lifecycle freshSt) as (_ & Hcreate & _ & Hclosed & _).
  split; [|split].
  - apply (Hopen "TestPipe" (openExisting "TestPipe" otherSt).2).
    vm_compute. reflexivity.
  - apply (Hcreate "TestPipe" true (createNewPipe "TestPipe" true freshSt).2).
    vm_compute. reflexivity.
  - apply Hclosed. vm_compute. reflexivity.
Defined.

Lemma open_closes_first_witness :
  (close freshSt).2 = freshSt ∧
  trace (openExisting "Elsewhere" createdSt).2
  = trace createdSt
      ++ [EvDriverCancel 0%nat; EvWriteLock; EvDriverClose 0%nat; EvWriteUnlock]
      ++ [EvWriteLock; EvDriverOpen "Elsewhere" false false; EvWriteUnlock].
Proof.
  destruct (open_closes_first "TestPipe" true freshSt) as (Hnoop & _).
  destruct (open_closes_first "Elsewhere" true createdSt)
    as (_ & _ & _ & _ & Htrace & _).
  split.
  - apply Hnoop. vm_compute. reflexivity.
  - exact Htrace.
Defined.

Lemma io_without_handle_witness :
  (read 4 2000 freshSt).1 = (-1, []) ∧ (write [] 4 2000 freshSt).1 = -1.
Proof.
  destruct (io_without_handle [] 4 2000 freshSt) as [Hr Hw].
  - vm_compute. reflexivity.
  - by rewrite Hr, Hw.
Defined.

Lemma failed_open_leaves_closed_witness :
  (openExisting "Elsewhere" createdSt).1 = false ∧
  (isOpen (openExisting "Elsewhere" createdSt).2).1 = false.
Proof.
  destruct (failed_open_leaves_closed "Elsewhere" true createdSt 0%nat)
    as [Hopen _].
  { vm_compute. reflexivity. }
  split; [vm_compute; reflexivity|].
  apply (Hopen (openExisting "Elsewhere" createdSt).2).
  vm_compute. reflexivity.
Defined.

Lemma createdSys_reachable : reachable createdSys.
Proof. apply reach_step, reachable_run, reach_init. Qed.

Lemma exclusive_creator_unique_witness :
  ∃ s2, call 1 (createNewPipe "TestPipe" true) createdSys = Some (false, s2) ∧
        answerOf (call 1 isOpen s2) = Some false.
Proof.
  apply (exclusive_creator_unique twoPipes 0 1 "TestPipe" createdSys).
  - apply reachable_run, reach_init.
  - lia.
  - eexists. vm_compute. reflexivity.
  - vm_compute. reflexivity.
Defined.

Lemma handle_iff_open_witness :
  answerOf (call 0 isOpen createdSys) = Some true ∧
  ∃ ep, endpoints (os createdSys) !! 0%nat = Some ep ∧
        answerOf (call 0 getName createdSys) = Some (epName ep).
Proof.
  destruct (handle_iff_open createdSys 0 (mkNamedPipe "TestPipe" (Some 0%nat)))
    as (Hopen & _ & Hname).
  - apply createdSys_reachable.
  - vm_compute. reflexivity.
  - split; [apply Hopen; by eexists | by apply Hname].
Defined.

Lemma destruction_releases_handle_witness :
  endpoints (os (exec (Destroy 0) createdSys)) = delete 0%nat (endpoints (os createdSys)) ∧
  insts (exec (Destroy 0) createdSys) = delete 0%nat (insts createdSys).
Proof.
  destruct (destruction_releases_handle createdSys 0
              (mkNamedPipe "TestPipe" (Some 0%nat)) 0)
    as (_ & _ & Hend & _ & Hinsts & _).
  - apply createdSys_reachable.
  - vm_compute. reflexivity.
  - reflexivity.
  - by split.
Defined.

(** ** Programs on one object, on any platform driver *)

Section ProgramProperties.
Context {World Handle : Type} `{!PipeDriver World Handle}.
Implicit Types (st : St World Handle) (m : Member) (ms : list Member).

Lemma lockRun_app (l : LockState) (t1 t2 : list (Event Handle)) :
  lockRun l (t1 ++ t2)
  = match lockRun l t1 with Some l' => lockRun l' t2 | None => None end.
Proof.
  revert l. induction t1 as [|e t1 IH]; intros l; cbn; [done|].
  destruct (lockStep l e); [apply IH | done].
Qed.

(** The events one call adds respect the lock discipline and leave the
    lock free. *)
Lemma runMember_events m st :
  ∃ evs, trace (runMember m st).2 = trace st ++ evs ∧
         lockRun Unlocked evs = Some Unlocked.
Proof.
  assert (Hclose : lockRun Unlocked (closeEvents (pimpl (self st)))
                   = Some Unlocked) by (by destruct (pimpl (self st))).
  destruct m as [n|n x| | | |k t|b k t]; unfold runMember, bind.
  - rewrite openExisting_spec, close_spec; cbn.
    destruct (driverOpen _ _ _ _) as [r w]; cbn. eexists.
    rewrite <- app_assoc. split; [done|]. by rewrite lockRun_app, Hclose.
  - rewrite createNewPipe_spec, close_spec; cbn.
    destruct (driverOpen _ _ _ _) as [r w]; cbn. eexists.
    rewrite <- app_assoc. split; [done|]. by rewrite lockRun_app, Hclose.
  - rewrite close_spec; cbn. eauto.
  - rewrite isOpen_spec; cbn. eauto.
  - rewrite getName_spec; cbn. eauto.
  - rewrite read_spec. destruct (pimpl (self st)) as [h|]; [|cbn; eauto].
    destruct (driverRead _ _ _ _) as [r w]; cbn. eauto.
  - rewrite write_spec. destruct (pimpl (self st)) as [h|]; [|cbn; eauto].
    destruct (driverWrite _ _ _ _) as [r w]; cbn. eauto.
Qed.

(** X1: whatever public member functions are called on an object, in
    whatever order, the events respect the lock discipline: the lock is
    never taken while it is held (the implicit [close] of [openExisting]
    and [createNewPipe] runs before their [ScopedWriteLock]), the driver is
    asked to open only under the write lock, and every call leaves the
    lock free. *)
Theorem lock_discipline ms st :
  lockRun Unlocked (trace st) = Some Unlocked →
  lockRun Unlocked (trace (runMembers ms st).2) = Some Unlocked.
Proof.
  revert st. induction ms as [|m ms IH]; intros st Hst; [done|].
  cbn. destruct (runMember_events m st) as (evs & Htr & Hevs).
  destruct (runMember m st) as [a st1]; cbn in *.
  specialize (IH st1). destruct (runMembers ms st1) as [rest st2]; cbn in *.
  apply IH. by rewrite Htr, lockRun_app, Hst.
Qed.

Lemma runMember_sameObject m st st' :
  sameObject st st' →
  (runMember m st).1 = (runMember m st').1 ∧
  sameObject (runMember m st).2 (runMember m st').2.
Proof.
  destruct st as [p w tr], st' as [p' w' tr']. intros [Hp Hw]; cbn in *.
  subst p' w'. unfold sameObject.
  destruct m as [n|n x| | | |k t|b k t]; unfold runMember, bind.
  - rewrite !openExisting_spec, !close_spec; cbn.
    by destruct (driverOpen _ _ _ _) as [r w'].
  - rewrite !createNewPipe_spec, !close_spec; cbn.
    by destruct (driverOpen _ _ _ _) as [r w'].
  - by rewrite !close_spec.
  - by rewrite !isOpen_spec.
  - by rewrite !getName_spec.
  - rewrite !read_spec; cbn. destruct (pimpl p) as [h|]; [|done].
    by destruct (driverRead _ _ _ _) as [r w'].
  - rewrite !write_spec; cbn. destruct (pimpl p) as [h|]; [|done].
    by destruct (driverWrite _ _ _ _) as [r w'].
Qed.

Lemma runMember_query m st :
  isQuery m = true → sameObject (runMember m st).2 st.
Proof.
  destruct m; try discriminate; intros _; unfold runMember, bind.
  - by rewrite isOpen_spec.
  - by rewrite getName_spec.
Qed.

Lemma runMembers_sameObject ms st st' :
  sameObject st st' →
  (runMembers ms st).1 = (runMembers ms st').1 ∧
  sameObject (runMembers ms st).2 (runMembers ms st').2.
Proof.
  revert st st'. induction ms as [|m ms IH]; intros st st' Hs; [done|].
  cbn. destruct (runMember_sameObject m st st' Hs) as [Ha Hs1].
  destruct (runMember m st) as [a st1], (runMember m st') as [a' st1'].
  cbn in *. subst a'. specialize (IH st1 st1' Hs1).
  destruct (runMembers ms st1) as [r st2], (runMembers ms st1') as [r' st2'].
  cbn in *. destruct IH as [-> IH]. done.
Qed.

(** X2: [isOpen] and [getName] are pure queries.  Dropping every such call
    from a program changes neither the answers of the other calls nor the
    object and the operating system the program ends with. *)
Theorem queries_are_transparent ms st :
  let keep := λ m, negb (isQuery m) in
  filter (λ ma, keep ma.1 = true) (runMembers ms st).1
    = (runMembers (filter (λ m, keep m = true) ms) st).1 ∧
  self (runMembers ms st).2 = self (runMembers (filter (λ m, keep m = true) ms) st).2 ∧
  drv (runMembers ms st).2 = drv (runMembers (filter (λ m, keep m = true) ms) st).2.
Proof.
  cbv zeta.
  enough (Hgen : ∀ st st', sameObject st st' →
    filter (λ ma, negb (isQuery ma.1) = true) (runMembers ms st).1
      = (runMembers (filter (λ m, negb (isQuery m) = true) ms) st').1 ∧
    sameObject (runMembers ms st).2
               (runMembers (filter (λ m, negb (isQuery m) = true) ms) st').2).
  { destruct (Hgen st st) as (? & ? & ?); done. }
  clear st. induction ms as [|m ms IH]; intros st st' Hs; [done|].
  cbn [runMembers]. destruct (isQuery m) eqn:Hq.
  - rewrite filter_cons_False by (rewrite Hq; cbn; congruence).
    pose proof (runMember_query m st Hq) as Hm.
    destruct (runMember m st) as [a st1]; cbn in Hm.
    assert (Hs1 : sameObject st1 st') by (destruct Hm, Hs; split; congruence).
    specialize (IH st1 st' Hs1).
    destruct (runMembers ms st1) as [rest st2]. cbn [fst snd] in *.
    rewrite filter_cons_False by (cbn; rewrite Hq; cbn; congruence). done.
  - rewrite filter_cons_True by (by rewrite Hq).
    cbn [runMembers].
    destruct (runMember_sameObject m st st' Hs) as [Ha Hs1].
    destruct (runMember m st) as [a st1], (runMember m st') as [a' st1'].
    cbn in *. subst a'. specialize (IH st1 st1' Hs1).
    destruct (runMembers ms st1) as [rest st2].
    destruct (runMembers (filter _ ms) st1') as [rest' st2'].
    cbn [fst snd] in *. rewrite filter_cons_True by (cbn; by rewrite Hq).
    destruct IH as [-> IH]. done.
Qed.

End ProgramProperties.

(** ** Who can open and who can create, on the reference platform *)

Section Decisions.
Implicit Types (s : System) (i j : nat) (p q : NamedPipe nat) (h : nat)
  (n : string) (w : World).

(** The names after the implicit [close]: the object's own name is gone,
    the others are as they were. *)
Lemma owners_after_close s i p n :
  Inv s → insts s !! i = Some p →
  owners (closeWorld (pimpl p) (os s)) !! n
  = match owners (os s) !! n with
    | Some h => if decide (pimpl p = Some h) then None else Some h
    | None => None
    end.
Proof.
  intros HI Hi. destruct (owners (os s) !! n) as [h|] eqn:Hn.
  - case_decide as Hp.
    + rewrite Hp; cbn.
      destruct (inv_owner s HI n h Hn) as (ep & Hep & Hname & _).
      unfold closeHandle, release, cancelPendingIO. rewrite Hep; cbn.
      rewrite Hep, Hname, decide_True by done. apply lookup_delete_eq.
    + by apply (owner_survives s i p).
  - destruct (pimpl p) as [h|]; [|done]. cbn.
    unfold closeHandle, release, cancelPendingIO; cbn.
    destruct (endpoints (os s) !! h) as [ep|] eqn:Hep; cbn; rewrite ?Hep; [|done].
    case_decide; [|done].
    destruct (decide (epName ep = n)) as [->|Hne]; [apply lookup_delete_eq|].
    by rewrite lookup_delete_ne.
Qed.

Lemma createdElsewhere_iff s i p n :
  Inv s → insts s !! i = Some p →
  createdElsewhere s i n
  ↔ ∃ h, owners (closeWorld (pimpl p) (os s)) !! n = Some h.
Proof.
  intros HI Hi. rewrite (owners_after_close s i p n HI Hi). split.
  - intros (j & q & h & Hji & Hj & Hq & Hn). rewrite Hn.
    rewrite decide_False; [eauto|].
    intros Hp. apply Hji. by apply (inv_excl s HI j i q p h).
  - intros [h Hh]. destruct (owners (os s) !! n) as [h'|] eqn:Hn; [|done].
    case_decide as Hp; [done|]. simplify_eq.
    destruct (inv_owner s HI n h Hn) as (ep & Hep & _).
    destruct (inv_noleak s HI h ep Hep) as (j & q & Hj & Hq).
    exists j, q, h. split; [|done]. intros ->. congruence.
Qed.

(** X3: [openExisting n] returns true exactly when another live object
    holds the endpoint that created [n].  In particular it fails on a name
    that does not exist, and it fails on the object that created the name
    itself, whose implicit [close] has just released it. *)
Theorem openExisting_decided s i p n :
  reachable s → insts s !! i = Some p →
  (answerOf (call i (openExisting n) s) = Some true ↔ createdElsewhere s i n) ∧
  (answerOf (call i (openExisting n) s) = Some false ↔ ¬ createdElsewhere s i n).
Proof.
  intros HI%reachable_inv Hi.
  pose proof (createdElsewhere_iff s i p n HI Hi) as Hce.
  rewrite (call_openExisting s i p n Hi). unfold open.
  destruct (owners (closeWorld (pimpl p) (os s)) !! n) as [h|]; cbn.
  - assert (createdElsewhere s i n) by (apply Hce; eauto).
    clear Hce. intuition congruence.
  - assert (¬ createdElsewhere s i n) by (by intros [h Hh]%Hce).
    clear Hce. intuition congruence.
Qed.

(** X4: [createNewPipe n true] returns false exactly when another live
    object holds the endpoint that created [n]; on a name that does not
    exist, and on the object's own name, it succeeds. *)
Theorem createNewPipe_exclusive_decided s i p n :
  reachable s → insts s !! i = Some p →
  (answerOf (call i (createNewPipe n true) s) = Some false ↔ createdElsewhere s i n) ∧
  (answerOf (call i (createNewPipe n true) s) = Some true ↔ ¬ createdElsewhere s i n).
Proof.
  intros HI%reachable_inv Hi.
  pose proof (createdElsewhere_iff s i p n HI Hi) as Hce.
  rewrite (call_createNewPipe s i p n true Hi). unfold open.
  destruct (owners (closeWorld (pimpl p) (os s)) !! n) as [h|]; cbn.
  - assert (createdElsewhere s i n) by (apply Hce; eauto).
    clear Hce. intuition congruence.
  - assert (¬ createdElsewhere s i n) by (by intros [h Hh]%Hce).
    clear Hce. intuition congruence.
Qed.

(** X5: [createNewPipe n false] always returns true and leaves the object
    open under the name [n]; the name then exists, and it belongs to this
    object unless another live object had created it. *)
Theorem createNewPipe_joins s i p n :
  reachable s → insts s !! i = Some p →
  ∃ s' h, call i (createNewPipe n false) s = Some (true, s') ∧
          insts s' !! i = Some (mkNamedPipe n (Some h)) ∧
          (∃ h', owners (os s') !! n = Some h') ∧
          (¬ createdElsewhere s i n → owners (os s') !! n = Some h).
Proof.
  intros HI%reachable_inv Hi.
  pose proof (createdElsewhere_iff s i p n HI Hi) as Hce.
  rewrite (call_createNewPipe s i p n false Hi). unfold open, connect.
  destruct (owners (closeWorld (pimpl p) (os s)) !! n) as [h|] eqn:Hn; cbn.
  - eexists _, _. split; [done|]. cbn. rewrite lookup_insert_eq.
    split; [done|]. split; [eauto|]. intros []. apply Hce. eauto.
  - eexists _, _. split; [done|]. cbn. rewrite !lookup_insert_eq. eauto.
Qed.

End Decisions.

(** ** What an operation leaves alone, on the reference platform *)

Section Isolation.
Implicit Types (s : System) (i j : nat) (p q : NamedPipe nat) (h : nat)
  (n : string) (w : World).

Lemma closeWorld_owners_sub (o : option nat) w n h :
  owners (closeWorld o w) !! n = Some h → owners w !! n = Some h.
Proof.
  destruct o as [h0|]; [|done]. cbn.
  unfold closeHandle, release, cancelPendingIO; cbn.
  destruct (endpoints w !! h0) as [ep|] eqn:Hep; cbn; rewrite ?Hep; [|done].
  case_decide; [|done]. by intros [_ ?]%lookup_delete_Some.
Qed.

Lemma closeWorld_endpoints (o : option nat) w h :
  o ≠ Some h → endpoints (closeWorld o w) !! h = endpoints w !! h.
Proof.
  destruct o as [h0|]; [|done]. intros Hne. cbn.
  unfold closeHandle, cancelPendingIO; cbn.
  destruct (endpoints w !! h0); cbn; apply lookup_delete_ne; congruence.
Qed.

Lemma closeWorld_nextHandle (o : option nat) w :
  nextHandle (closeWorld o w) = nextHandle w.
Proof.
  destruct o as [h0|]; [|done]. cbn. unfold closeHandle, cancelPendingIO; cbn.
  by destruct (endpoints w !! h0).
Qed.

Lemma open_keeps n (srv excl : bool) w r w' :
  open n srv excl w = (r, w') →
  (∀ h, (h < nextHandle w)%nat → endpoints w' !! h = endpoints w !! h) ∧
  (∀ n' h, owners w !! n' = Some h → owners w' !! n' = Some h).
Proof.
  unfold open, connect. intros Hopen.
  destruct (owners w !! n) as [h0|] eqn:Hn.
  - destruct (srv && excl); simplify_eq; cbn; [done|].
    split; [|done]. intros h Hlt. apply lookup_insert_ne. lia.
  - destruct srv; simplify_eq; cbn; [|done]. split.
    + intros h Hlt. apply lookup_insert_ne. lia.
    + intros n' h Hn'. rewrite lookup_insert_ne; [done|]. congruence.
Qed.

(** X6: [openExisting] never creates a pipe.  Whatever it returns, every
    name that exists afterwards existed before, with the same creator. *)
Theorem openExisting_creates_nothing s i n n' h :
  owners (os (exec (OpenExisting i n) s)) !! n' = Some h →
  owners (os s) !! n' = Some h.
Proof.
  cbn. destruct (insts s !! i) as [p|] eqn:Hi.
  - rewrite (call_openExisting s i p n Hi). unfold open.
    destruct (owners (closeWorld (pimpl p) (os s)) !! n); cbn;
      apply closeWorld_owners_sub.
  - unfold call. by rewrite Hi.
Qed.

(** X7: an operation on one object leaves every other object alone.  The
    other object keeps its name and its handle, the handle stays the open
    endpoint it was, and a name it created stays its own: closing,
    destroying or re-opening one [NamedPipe] never closes another or takes
    its pipe away. *)
Theorem other_objects_untouched o s j q :
  reachable s → target o ≠ j → insts s !! j = Some q →
  insts (exec o s) !! j = Some q ∧
  (∀ h, pimpl q = Some h →
     endpoints (os (exec o s)) !! h = endpoints (os s) !! h ∧
     (∀ n, owners (os s) !! n = Some h → owners (os (exec o s)) !! n = Some h)).
Proof.
  intros HI%reachable_inv Hne Hj.
  assert (Hclose : ∀ i p, i ≠ j → insts s !! i = Some p →
    ∀ h, pimpl q = Some h →
      endpoints (closeWorld (pimpl p) (os s)) !! h = endpoints (os s) !! h ∧
      (∀ n, owners (os s) !! n = Some h →
            owners (closeWorld (pimpl p) (os s)) !! n = Some h)).
  { intros i p Hij Hi h Hq.
    assert (pimpl p ≠ Some h).
    { intros Hp. apply Hij. by apply (inv_excl s HI i j p q h). }
    split; [by apply closeWorld_endpoints|].
    intros n Hn. by apply (owner_survives s i p). }
  assert (Hopen : ∀ i p n (srv excl : bool), i ≠ j → insts s !! i = Some p →
    ∀ h, pimpl q = Some h →
      endpoints (open n srv excl (closeWorld (pimpl p) (os s))).2 !! h
        = endpoints (os s) !! h ∧
      (∀ n', owners (os s) !! n' = Some h →
             owners (open n srv excl (closeWorld (pimpl p) (os s))).2 !! n' = Some h)).
  { intros i p n srv excl Hij Hi h Hq.
    destruct (Hclose i p Hij Hi h Hq) as [Hep Hown].
    destruct (open n srv excl _) as [r w] eqn:Ho.
    destruct (open_keeps _ _ _ _ _ _ Ho) as [Hk1 Hk2]. cbn. split.
    - rewrite Hk1, Hep; [done|]. rewrite closeWorld_nextHandle.
      destruct (inv_held s HI j q h Hj Hq) as (ep & Hh & _).
      by apply (inv_fresh s HI h ep).
    - intros n' Hn'. by apply Hk2, Hown. }
  assert (Hobs : ∀ {A} (m : M World nat A) i,
    (∀ st, self (m st).2 = self st ∧ sameRegistry (drv (m st).2) (drv st)) →
    i ≠ j →
    insts (after (call i m s) s) !! j = Some q ∧
    (∀ h, pimpl q = Some h →
       endpoints (os (after (call i m s) s)) !! h = endpoints (os s) !! h ∧
       (∀ n, owners (os s) !! n = Some h →
             owners (os (after (call i m s) s)) !! n = Some h))).
  { intros A m i Hm Hij. unfold call.
    destruct (insts s !! i) as [p|] eqn:Hi; [|done].
    destruct (Hm (mkSt p (os s) [])) as [Hself (_ & Hep & Hown)].
    destruct (m _) as [r st]; cbn in *.
    rewrite lookup_insert_ne by done. rewrite Hep, Hown. done. }
  destruct o as [i|i|i n|i n m|i|i|i|i k t|i b k t]; cbn in Hne; cbn.
  - destruct (insts s !! i); [done|]. cbn. by rewrite lookup_insert_ne.
  - unfold destroy. destruct (insts s !! i) as [p|] eqn:Hi.
    + rewrite (call_close s i p Hi); cbn.
      rewrite lookup_delete_ne, lookup_insert_ne by done. eauto.
    + unfold call. by rewrite Hi.
  - destruct (insts s !! i) as [p|] eqn:Hi.
    + rewrite (call_openExisting s i p n Hi).
      pose proof (Hopen i p n false false Hne Hi) as Ho.
      destruct (open n false false _) as [r w]; cbn in *.
      by rewrite lookup_insert_ne.
    + unfold call. by rewrite Hi.
  - destruct (insts s !! i) as [p|] eqn:Hi.
    + rewrite (call_createNewPipe s i p n m Hi).
      pose proof (Hopen i p n true m Hne Hi) as Ho.
      destruct (open n true m _) as [r w]; cbn in *.
      by rewrite lookup_insert_ne.
    + unfold call. by rewrite Hi.
  - destruct (insts s !! i) as [p|] eqn:Hi.
    + rewrite (call_close s i p Hi); cbn.
      rewrite lookup_insert_ne by done. eauto.
    + unfold call. by rewrite Hi.
  - apply Hobs; [|done]. intros st. by rewrite isOpen_spec.
  - apply Hobs; [|done]. intros st. by rewrite getName_spec.
  - apply Hobs; [|done]. intros st. rewrite read_spec.
    destruct (pimpl (self st)) as [h|]; [|done]. cbn. unfold readHandle.
    pose proof (answer_registry h (drv st)) as Hreg.
    by destruct (answer h (drv st)) as [[] w].
  - apply Hobs; [|done]. intros st. rewrite write_spec.
    destruct (pimpl (self st)) as [h|]; [|done]. cbn. unfold writeHandle.
    pose proof (answer_registry h (drv st)) as Hreg.
    by destruct (answer h (drv st)) as [[] w].
Qed.

(** X8: the operating system holds nothing that the program does not.
    Every open endpoint is the handle of exactly one live object, whose
    name is the one the endpoint was opened under; every name that exists
    was created by an endpoint that is still open; and when no object is
    left, no endpoint and no name are left. *)
Theorem platform_accounting s :
  reachable s →
  (∀ h ep, endpoints (os s) !! h = Some ep →
     ∃ i p, insts s !! i = Some p ∧ pimpl p = Some h ∧
            currentPipeName p = epName ep ∧
            ∀ j q, insts s !! j = Some q → pimpl q = Some h → j = i) ∧
  (∀ n h, owners (os s) !! n = Some h →
     ∃ ep, endpoints (os s) !! h = Some ep ∧ epName ep = n) ∧
  (insts s = ∅ → endpoints (os s) = ∅ ∧ owners (os s) = ∅).
Proof.
  intros HI%reachable_inv.
  assert (H1 : ∀ h ep, endpoints (os s) !! h = Some ep →
     ∃ i p, insts s !! i = Some p ∧ pimpl p = Some h ∧
            currentPipeName p = epName ep ∧
            ∀ j q, insts s !! j = Some q → pimpl q = Some h → j = i).
  { intros h ep Hep. destruct (inv_noleak s HI h ep Hep) as (i & p & Hi & Hp).
    exists i, p. repeat split; [done..| |].
    - destruct (inv_held s HI i p h Hi Hp) as (ep' & Hep' & <-). congruence.
    - intros j q Hj Hq. by apply (inv_excl s HI j i q p h). }
  assert (H2 : ∀ n h, owners (os s) !! n = Some h →
     ∃ ep, endpoints (os s) !! h = Some ep ∧ epName ep = n).
  { intros n h Hn. destruct (inv_owner s HI n h Hn) as (ep & ? & ? & _). eauto. }
  split; [done|]. split; [done|]. intros Hempty.
  assert (Hnone : endpoints (os s) = ∅).
  { apply map_empty. intros h.
    destruct (endpoints (os s) !! h) as [ep|] eqn:Hep; [|done].
    destruct (H1 h ep Hep) as (i & p & Hi & _).
    by rewrite Hempty, lookup_empty in Hi. }
  split; [done|]. apply map_empty. intros n.
  destruct (owners (os s) !! n) as [h|] eqn:Hn; [|done].
  destruct (H2 n h Hn) as (ep & Hep & _).
  by rewrite Hnone, lookup_empty in Hep.
Qed.

End Isolation.

(** ** The unit test, step by step *)

Section TestBlocks.
Implicit Types (s : System) (i j : nat) (p q : NamedPipe nat) (h : nat)
  (n : string) (w : World).

(** Creating a name that is free once the object has closed. *)
Lemma create_free s i p n (m : bool) :
  insts s !! i = Some p →
  owners (closeWorld (pimpl p) (os s)) !! n = None →
  ∃ h, call i (createNewPipe n m) s = Some (true, exec (CreateNewPipe i n m) s) ∧
       insts (exec (CreateNewPipe i n m) s) = <[i := mkNamedPipe n (Some h)]> (insts s) ∧
       owners (os (exec (CreateNewPipe i n m) s)) !! n = Some h.
Proof.
  intros Hi Hn. cbn [exec]. rewrite (call_createNewPipe s i p n m Hi).
  unfold open. rewrite Hn. unfold connect. cbn [after insts os owners].
  eexists. split; [done|]. split; [done|]. apply lookup_insert_eq.
Qed.

Lemma create_conflict s i p n h0 :
  insts s !! i = Some p →
  owners (closeWorld (pimpl p) (os s)) !! n = Some h0 →
  call i (createNewPipe n true) s = Some (false, exec (CreateNewPipe i n true) s) ∧
  insts (exec (CreateNewPipe i n true) s) = <[i := mkNamedPipe n None]> (insts s) ∧
  owners (os (exec (CreateNewPipe i n true) s)) !! n = Some h0.
Proof.
  intros Hi Hn. cbn [exec]. rewrite (call_createNewPipe s i p n true Hi).
  unfold open. rewrite Hn. cbn [andb after insts os owners]. done.
Qed.

Lemma open_found s i p n h0 :
  insts s !! i = Some p →
  owners (closeWorld (pimpl p) (os s)) !! n = Some h0 →
  ∃ h, call i (openExisting n) s = Some (true, exec (OpenExisting i n) s) ∧
       insts (exec (OpenExisting i n) s) = <[i := mkNamedPipe n (Some h)]> (insts s) ∧
       owners (os (exec (OpenExisting i n) s)) !! n = Some h0.
Proof.
  intros Hi Hn. cbn [exec]. rewrite (call_openExisting s i p n Hi).
  unfold open. rewrite Hn. unfold connect. cbn [andb after insts os owners].
  eexists. done.
Qed.

Lemma open_missing s i p n :
  insts s !! i = Some p →
  owners (closeWorld (pimpl p) (os s)) !! n = None →
  call i (openExisting n) s = Some (false, exec (OpenExisting i n) s) ∧
  insts (exec (OpenExisting i n) s) = <[i := mkNamedPipe n None]> (insts s) ∧
  owners (os (exec (OpenExisting i n) s)) !! n = None.
Proof.
  intros Hi Hn. cbn [exec]. rewrite (call_openExisting s i p n Hi).
  unfold open. rewrite Hn. cbn [after insts os owners]. done.
Qed.

Lemma destroy_step s i p :
  insts s !! i = Some p →
  insts (exec (Destroy i) s) = delete i (insts s) ∧
  os (exec (Destroy i) s) = closeWorld (pimpl p) (os s).
Proof.
  intros Hi. cbn [exec]. unfold destroy. rewrite (call_close s i p Hi).
  cbn [insts os]. by rewrite delete_insert_eq.
Qed.

Lemma construct_step s i :
  insts s !! i = None →
  insts (exec (Construct i) s) = <[i := construct]> (insts s) ∧
  os (exec (Construct i) s) = os s.
Proof. intros Hi. cbn [exec]. by rewrite Hi. Qed.

Lemma create_join s i p n h0 :
  insts s !! i = Some p →
  owners (closeWorld (pimpl p) (os s)) !! n = Some h0 →
  ∃ h, call i (createNewPipe n false) s
         = Some (true, exec (CreateNewPipe i n false) s) ∧
       insts (exec (CreateNewPipe i n false) s)
         = <[i := mkNamedPipe n (Some h)]> (insts s) ∧
       owners (os (exec (CreateNewPipe i n false) s)) !! n = Some h0.
Proof.
  intros Hi Hn. cbn [exec]. rewrite (call_createNewPipe s i p n false Hi).
  unfold open. rewrite Hn. unfold connect. cbn [andb after insts os owners].
  eexists. done.
Qed.

Lemma call_getName s i p :
  insts s !! i = Some p → call i getName s = Some (currentPipeName p, s).
Proof.
  intros Hi. unfold call. rewrite Hi, getName_spec.
  cbn [self drv fst snd]. rewrite insert_id by done. by destruct s.
Qed.

Lemma call_read_closed s i p (k t : Z) :
  insts s !! i = Some p → pimpl p = None →
  call i (read k t) s = Some ((-1, []), s).
Proof.
  intros Hi Hp. unfold call. rewrite Hi, read_spec. cbn [self drv]. rewrite Hp.
  cbn [self drv]. rewrite insert_id by done. by destruct s.
Qed.

Lemma call_write_closed s i p (b : list Byte.byte) (k t : Z) :
  insts s !! i = Some p → pimpl p = None →
  call i (write b k t) s = Some (-1, s).
Proof.
  intros Hi Hp. unfold call. rewrite Hi, write_spec. cbn [self drv]. rewrite Hp.
  cbn [self drv]. rewrite insert_id by done. by destruct s.
Qed.


Lemma call_isOpen s i p :
  insts s !! i = Some p → call i isOpen s = Some (notNull (pimpl p), s).
Proof.
  intros Hi. unfold call. rewrite Hi, isOpen_spec.
  cbn [self drv fst snd]. rewrite insert_id by done. by destruct s.
Qed.

Lemma preTestCleanup_pass n s :
  testReady n s →
  (preTestCleanup n s).1 = [true] ∧
  testReady n (preTestCleanup n s).2 ∧
  insts (preTestCleanup n s).2 = insts s.
Proof.
  intros (Hr & H0 & H1 & Hn). unfold preTestCleanup, expect.
  destruct (construct_step s 0 H0) as [Hi1 Ho1].
  set (s1 := exec (Construct 0) s) in *.
  assert (Hr1 : reachable s1) by (by constructor).
  assert (Hp1 : insts s1 !! 0%nat = Some construct) by (by rewrite Hi1, lookup_insert_eq).
  destruct (create_free s1 0 _ n false Hp1) as (h2 & Hc2 & Hi2 & Hn2);
    [by rewrite Ho1|].
  rewrite Hc2. set (s2 := exec (CreateNewPipe 0 n false) s1) in *.
  assert (Hr2 : reachable s2) by (by constructor).
  assert (Hp2 : insts s2 !! 0%nat = Some (mkNamedPipe n (Some h2)))
    by (by rewrite Hi2, lookup_insert_eq).
  cbn [fst snd].
  destruct (destroy_step s2 0 _ Hp2) as [Hi3 Ho3].
  set (s3 := exec (Destroy 0) s2) in *.
  assert (Hins : insts s3 = insts s).
  { rewrite Hi3, Hi2, Hi1. rewrite insert_insert_eq, delete_insert_eq.
    by apply delete_id. }
  split; [done|]. split; [|done].
  split; [by constructor|]. rewrite Hins. split; [done|]. split; [done|].
  rewrite Ho3, (owners_after_close s2 0 _ n (reachable_inv _ Hr2) Hp2), Hn2.
  cbn [pimpl]. by rewrite decide_True.
Qed.

Lemma createPipeTest_pass n s :
  testReady n s →
  (createPipeTest n s).1 = replicate 7 true ∧
  testReady n (createPipeTest n s).2 ∧
  insts (createPipeTest n s).2 = insts s.
Proof.
  intros (Hr & H0 & H1 & Hn). unfold createPipeTest, expect.
  (* NamedPipe pipe; *)
  destruct (construct_step s 0 H0) as [Hi1 Ho1].
  set (s1 := exec (Construct 0) s) in *.
  assert (Hr1 : reachable s1) by (by constructor).
  assert (Hp1 : insts s1 !! 0%nat = Some construct) by (by rewrite Hi1, lookup_insert_eq).
  rewrite (call_isOpen s1 0 _ Hp1).
  (* pipe.createNewPipe (pipeName, true) *)
  destruct (create_free s1 0 _ n true Hp1) as (h2 & Hc2 & Hi2 & Hn2);
    [by rewrite Ho1|].
  rewrite Hc2. set (s2 := exec (CreateNewPipe 0 n true) s1) in *.
  assert (Hr2 : reachable s2) by (by constructor).
  assert (Hp2 : insts s2 !! 0%nat = Some (mkNamedPipe n (Some h2)))
    by (by rewrite Hi2, lookup_insert_eq).
  rewrite (call_isOpen s2 0 _ Hp2).
  (* pipe.createNewPipe (pipeName, false) *)
  destruct (create_free s2 0 _ n false Hp2) as (h3 & Hc3 & Hi3 & Hn3).
  { rewrite (owners_after_close s2 0 _ n (reachable_inv _ Hr2) Hp2), Hn2.
    cbn [pimpl]. by rewrite decide_True. }
  rewrite Hc3. set (s3 := exec (CreateNewPipe 0 n false) s2) in *.
  assert (Hr3 : reachable s3) by (by constructor).
  assert (Hp3 : insts s3 !! 0%nat = Some (mkNamedPipe n (Some h3)))
    by (by rewrite Hi3, lookup_insert_eq).
  rewrite (call_isOpen s3 0 _ Hp3).
  (* NamedPipe otherPipe; *)
  assert (H13 : insts s3 !! 1%nat = None).
  { rewrite Hi3, lookup_insert_ne, Hi2, lookup_insert_ne, Hi1, lookup_insert_ne by done. done. }
  destruct (construct_step s3 1 H13) as [Hi4 Ho4].
  set (s4 := exec (Construct 1) s3) in *.
  assert (Hr4 : reachable s4) by (by constructor).
  assert (Hq4 : insts s4 !! 1%nat = Some construct) by (by rewrite Hi4, lookup_insert_eq).
  (* otherPipe.createNewPipe (pipeName, true) *)
  destruct (create_conflict s4 1 _ n h3 Hq4) as (Hc5 & Hi5 & Hn5);
    [by rewrite Ho4|].
  rewrite Hc5. set (s5 := exec (CreateNewPipe 1 n true) s4) in *.
  assert (Hr5 : reachable s5) by (by constructor).
  assert (Hq5 : insts s5 !! 1%nat = Some (mkNamedPipe n None))
    by (by rewrite Hi5, lookup_insert_eq).
  rewrite (call_isOpen s5 1 _ Hq5).
  cbn [fst snd].
  (* the objects go out of scope *)
  destruct (destroy_step s5 1 _ Hq5) as [Hi6 Ho6].
  set (s6 := exec (Destroy 1) s5) in *.
  assert (Hr6 : reachable s6) by (by constructor).
  assert (Hp6 : insts s6 !! 0%nat = Some (mkNamedPipe n (Some h3))).
  { rewrite Hi6, lookup_delete_ne, Hi5, lookup_insert_ne, Hi4, lookup_insert_ne by done. done. }
  destruct (destroy_step s6 0 _ Hp6) as [Hi7 Ho7].
  set (s7 := exec (Destroy 0) s6) in *.
  assert (Hins : insts s7 = insts s).
  { rewrite Hi7, Hi6, Hi5, Hi4, Hi3, Hi2, Hi1. apply map_eq. intros k.
    destruct (decide (k = 0%nat)) as [->|]; [by rewrite lookup_delete_eq|].
    rewrite lookup_delete_ne by done.
    destruct (decide (k = 1%nat)) as [->|]; [by rewrite lookup_delete_eq|].
    rewrite lookup_delete_ne by done.
    by rewrite !lookup_insert_ne by done. }
  split; [done|]. split; [|done].
  split; [by constructor|]. rewrite Hins. split; [done|]. split; [done|].
  rewrite Ho7, (owners_after_close s6 0 _ n (reachable_inv _ Hr6) Hp6).
  rewrite Ho6. cbn [pimpl closeWorld]. rewrite Hn5. by rewrite decide_True.
Qed.

Lemma existingPipeTest_pass n s :
  testReady n s →
  (existingPipeTest n s).1 = replicate 5 true ∧
  testReady n (existingPipeTest n s).2 ∧
  insts (existingPipeTest n s).2 = insts s.
Proof.
  intros (Hr & H0 & H1 & Hn). unfold existingPipeTest, expect.
  destruct (construct_step s 0 H0) as [Hi1 Ho1].
  set (s1 := exec (Construct 0) s) in *.
  assert (Hr1 : reachable s1) by (by constructor).
  assert (Hp1 : insts s1 !! 0%nat = Some construct) by (by rewrite Hi1, lookup_insert_eq).
  (* pipe.openExisting (pipeName) *)
  destruct (open_missing s1 0 _ n Hp1) as (Hc2 & Hi2 & Hn2); [by rewrite Ho1|].
  rewrite Hc2. set (s2 := exec (OpenExisting 0 n) s1) in *.
  assert (Hr2 : reachable s2) by (by constructor).
  assert (Hp2 : insts s2 !! 0%nat = Some (mkNamedPipe n None))
    by (by rewrite Hi2, lookup_insert_eq).
  rewrite (call_isOpen s2 0 _ Hp2).
  (* pipe.createNewPipe (pipeName, true) *)
  destruct (create_free s2 0 _ n true Hp2) as (h3 & Hc3 & Hi3 & Hn3); [done|].
  rewrite Hc3. set (s3 := exec (CreateNewPipe 0 n true) s2) in *.
  assert (Hr3 : reachable s3) by (by constructor).
  (* NamedPipe otherPipe; *)
  assert (H13 : insts s3 !! 1%nat = None).
  { rewrite Hi3, lookup_insert_ne, Hi2, lookup_insert_ne, Hi1, lookup_insert_ne by done. done. }
  destruct (construct_step s3 1 H13) as [Hi4 Ho4].
  set (s4 := exec (Construct 1) s3) in *.
  assert (Hr4 : reachable s4) by (by constructor).
  assert (Hq4 : insts s4 !! 1%nat = Some construct) by (by rewrite Hi4, lookup_insert_eq).
  (* otherPipe.openExisting (pipeName) *)
  destruct (open_found s4 1 _ n h3 Hq4) as (h5 & Hc5 & Hi5 & Hn5);
    [by rewrite Ho4|].
  rewrite Hc5. set (s5 := exec (OpenExisting 1 n) s4) in *.
  assert (Hr5 : reachable s5) by (by constructor).
  assert (Hq5 : insts s5 !! 1%nat = Some (mkNamedPipe n (Some h5)))
    by (by rewrite Hi5, lookup_insert_eq).
  assert (Hp5 : insts s5 !! 0%nat = Some (mkNamedPipe n (Some h3))).
  { rewrite Hi5, lookup_insert_ne, Hi4, lookup_insert_ne, Hi3 by done.
    apply lookup_insert_eq. }
  rewrite (call_isOpen s5 1 _ Hq5).
  cbn [fst snd].
  (* the objects go out of scope *)
  destruct (destroy_step s5 1 _ Hq5) as [Hi6 Ho6].
  set (s6 := exec (Destroy 1) s5) in *.
  assert (Hr6 : reachable s6) by (by constructor).
  assert (Hp6 : insts s6 !! 0%nat = Some (mkNamedPipe n (Some h3))).
  { by rewrite Hi6, lookup_delete_ne. }
  assert (Hn6 : owners (os s6) !! n = Some h3).
  { rewrite Ho6, (owners_after_close s5 1 _ n (reachable_inv _ Hr5) Hq5), Hn5.
    cbn [pimpl]. rewrite decide_False; [done|]. intros [= ->].
    by pose proof (inv_excl s5 (reachable_inv _ Hr5) 0 1 _ _ h3 Hp5 Hq5 eq_refl eq_refl). }
  destruct (destroy_step s6 0 _ Hp6) as [Hi7 Ho7].
  set (s7 := exec (Destroy 0) s6) in *.
  assert (Hins : insts s7 = insts s).
  { rewrite Hi7, Hi6, Hi5, Hi4, Hi3, Hi2, Hi1. apply map_eq. intros k.
    destruct (decide (k = 0%nat)) as [->|]; [by rewrite lookup_delete_eq|].
    rewrite lookup_delete_ne by done.
    destruct (decide (k = 1%nat)) as [->|]; [by rewrite lookup_delete_eq|].
    rewrite lookup_delete_ne by done.
    by rewrite !lookup_insert_ne by done. }
  split; [done|]. split; [|done].
  split; [by constructor|]. rewrite Hins. split; [done|]. split; [done|].
  rewrite Ho7, (owners_after_close s6 0 _ n (reachable_inv _ Hr6) Hp6), Hn6.
  cbn [pimpl]. by rewrite decide_True.
Qed.

(** X10: the three lifecycle blocks of [runTest] pass for every pipe name
    (the test appends the thread id to "TestPipe") and whatever else the
    program holds, as long as the addresses of [pipe] and [otherPipe] are
    free and the name does not exist: all thirteen expectations are met,
    and the blocks leave the objects as they found them and the name gone,
    so that they can run again. *)
Theorem lifecycleTests_pass_everywhere n s :
  testReady n s →
  (lifecycleTests n s).1 = replicate 13 true ∧
  testReady n (lifecycleTests n s).2 ∧
  insts (lifecycleTests n s).2 = insts s.
Proof.
  intros Hs. unfold lifecycleTests.
  destruct (preTestCleanup_pass n s Hs) as (Ha & Hs1 & Hi1).
  destruct (preTestCleanup n s) as [r1 s1]; cbn [fst snd] in *.
  destruct (createPipeTest_pass n s1 Hs1) as (Hb & Hs2 & Hi2).
  destruct (createPipeTest n s1) as [r2 s2]; cbn [fst snd] in *.
  destruct (existingPipeTest_pass n s2 Hs2) as (Hc & Hs3 & Hi3).
  destruct (existingPipeTest n s2) as [r3 s3]; cbn [fst snd] in *.
  subst r1 r2 r3. split; [done|]. split; [done|]. congruence.
Qed.

End TestBlocks.

(** ** The threads of the unit test *)

Section Threads.
Implicit Types (s : System) (i j : nat) (p q : NamedPipe nat) (h : nat)
  (n : string) (w : World) (t : NamedPipeThread).

(** X11: a [NamedPipeThread] drops what [openExisting] returns.  Built to
    open a name that does not exist, it holds a closed pipe named after it,
    and [run] then sets [result] to -1 instead of the initial -2, signals
    [workCompleted], and leaves [recvData] and the operating system as
    they were. *)
Theorem thread_without_pipe i n (c : bool) (bytes : list Byte.byte) s :
  insts s !! i = None → owners (os s) !! n = None →
  let t := (NamedPipeThread_ctor i n false c bytes s).1 in
  let s1 := (NamedPipeThread_ctor i n false c bytes s).2 in
  result t = -2 ∧
  answerOf (call i isOpen s1) = Some false ∧
  answerOf (call i getName s1) = Some n ∧
  SenderThread_run t s1 = (mkThread i true (-1) bytes, s1) ∧
  ReceiverThread_run t s1 = (mkThread i true (-1) bytes, s1).
Proof.
  intros Hi Hn. unfold NamedPipeThread_ctor. cbn [fst snd].
  destruct (construct_step s i Hi) as [Hi1 Ho1].
  set (s1 := exec (Construct i) s) in *.
  assert (Hp1 : insts s1 !! i = Some construct) by (by rewrite Hi1, lookup_insert_eq).
  destruct (open_missing s1 i _ n Hp1) as (Hc2 & Hi2 & Hn2); [by rewrite Ho1|].
  set (s2 := exec (OpenExisting i n) s1) in *.
  assert (Hp2 : insts s2 !! i = Some (mkNamedPipe n None))
    by (by rewrite Hi2, lookup_insert_eq).
  split; [done|]. unfold SenderThread_run, ReceiverThread_run. cbn [pipe data].
  rewrite (call_isOpen s2 i _ Hp2), (call_getName s2 i _ Hp2).
  rewrite (call_write_closed s2 i _ _ _ _ Hp2 eq_refl).
  rewrite (call_read_closed s2 i _ _ _ Hp2 eq_refl).
  done.
Qed.

(** X12: the set-up of the "existing pipe" blocks.  A [NamedPipeThread]
    built with [shouldCreatePipe] holds an open pipe whatever the state of
    the name, and [openExisting] on a closed pipe of the test then returns
    true: both ends are open under the name before a transfer starts. *)
Theorem thread_creates_for_opener i j n (c : bool) (bytes : list Byte.byte) s q :
  insts s !! i = None → insts s !! j = Some q → pimpl q = None →
  let s1 := (NamedPipeThread_ctor i n true c bytes s).2 in
  answerOf (call i isOpen s1) = Some true ∧
  ∃ s2, call j (openExisting n) s1 = Some (true, s2) ∧
        answerOf (call i isOpen s2) = Some true ∧
        answerOf (call j isOpen s2) = Some true ∧
        answerOf (call i getName s2) = Some n ∧
        answerOf (call j getName s2) = Some n.
Proof.
  intros Hi Hj Hq. unfold NamedPipeThread_ctor. cbn [fst snd].
  assert (Hij : i ≠ j) by (intros ->; congruence).
  destruct (construct_step s i Hi) as [Hi1 Ho1].
  set (s1 := exec (Construct i) s) in *.
  assert (Hp1 : insts s1 !! i = Some construct) by (by rewrite Hi1, lookup_insert_eq).
  assert (∃ h h0, insts (exec (CreateNewPipe i n false) s1)
                    = <[i := mkNamedPipe n (Some h)]> (insts s1) ∧
                  owners (os (exec (CreateNewPipe i n false) s1)) !! n = Some h0)
    as (h & h0 & Hi2 & Hn2).
  { destruct (owners (os s1) !! n) as [h0|] eqn:Hn.
    - destruct (create_join s1 i _ n h0 Hp1) as (h & _ & ? & ?); eauto.
    - destruct (create_free s1 i _ n false Hp1) as (h & _ & ? & ?); eauto. }
  set (s2 := exec (CreateNewPipe i n false) s1) in *.
  assert (Hp2 : insts s2 !! i = Some (mkNamedPipe n (Some h)))
    by (by rewrite Hi2, lookup_insert_eq).
  assert (Hq2 : insts s2 !! j = Some q).
  { by rewrite Hi2, lookup_insert_ne, Hi1, lookup_insert_ne. }
  rewrite (call_isOpen s2 i _ Hp2). split; [done|].
  destruct (open_found s2 j q n h0 Hq2) as (h3 & Hc3 & Hi3 & Hn3);
    [by rewrite Hq|].
  set (s3 := exec (OpenExisting j n) s2) in *.
  exists s3. split; [done|].
  assert (Hp3 : insts s3 !! i = Some (mkNamedPipe n (Some h)))
    by (by rewrite Hi3, lookup_insert_ne).
  assert (Hq3 : insts s3 !! j = Some (mkNamedPipe n (Some h3)))
    by (by rewrite Hi3, lookup_insert_eq).
  rewrite (call_isOpen s3 i _ Hp3), (call_isOpen s3 j _ Hq3).
  rewrite (call_getName s3 i _ Hp3), (call_getName s3 j _ Hq3). done.
Qed.

(** X13: the set-up of the "created pipe" blocks.  Once the test's pipe
    has created the name exclusively, a [NamedPipeThread] built without
    [shouldCreatePipe] holds an open pipe, and the creator is still open:
    both ends are open under the name before a transfer starts. *)
Theorem thread_opens_created i j n (c : bool) (bytes : list Byte.byte) s s1 :
  insts s !! i = None →
  call j (createNewPipe n true) s = Some (true, s1) →
  let s2 := (NamedPipeThread_ctor i n false c bytes s1).2 in
  answerOf (call i isOpen s2) = Some true ∧
  answerOf (call j isOpen s2) = Some true ∧
  answerOf (call i getName s2) = Some n ∧
  answerOf (call j getName s2) = Some n.
Proof.
  intros Hi Hcall. unfold NamedPipeThread_ctor. cbn [fst snd].
  destruct (insts s !! j) as [q|] eqn:Hj;
    [|by unfold call in Hcall; rewrite Hj in Hcall].
  assert (Hij : i ≠ j) by (intros ->; congruence).
  rewrite (call_createNewPipe s j q n true Hj) in Hcall.
  destruct (open n true true _) as [r w] eqn:Hopen. simplify_eq.
  destruct (exclusive_success _ _ _ _ Hopen) as [-> Hown]; [done|].
  set (h := nextHandle (closeWorld (pimpl q) (os s))) in *.
  set (s1 := mkSystem (<[j := mkNamedPipe n (Some h)]> (insts s)) w) in *.
  assert (Hi1 : insts s1 !! i = None) by (cbn; by rewrite lookup_insert_ne).
  destruct (construct_step s1 i Hi1) as [Hi2 Ho2].
  set (s2 := exec (Construct i) s1) in *.
  assert (Hp2 : insts s2 !! i = Some construct) by (by rewrite Hi2, lookup_insert_eq).
  destruct (open_found s2 i _ n h Hp2) as (h3 & Hc3 & Hi3 & Hn3);
    [by rewrite Ho2|].
  set (s3 := exec (OpenExisting i n) s2) in *.
  assert (Hp3 : insts s3 !! i = Some (mkNamedPipe n (Some h3)))
    by (by rewrite Hi3, lookup_insert_eq).
  assert (Hq3 : insts s3 !! j = Some (mkNamedPipe n (Some h))).
  { rewrite Hi3, lookup_insert_ne, Hi2, lookup_insert_ne by done.
    cbn. apply lookup_insert_eq. }
  rewrite (call_isOpen s3 i _ Hp3), (call_isOpen s3 j _ Hq3).
  rewrite (call_getName s3 i _ Hp3), (call_getName s3 j _ Hq3). done.
Qed.

End Threads.

(** ** The further theorems at work on the scenarios of the unit test *)

Lemma lock_discipline_witness :
  lockRun Unlocked
    (trace (runMembers [MIsOpen; MCreateNewPipe "TestPipe" true; MRead 4 2000;
                        MOpenExisting "Elsewhere"; MClose] freshSt).2)
  = Some Unlocked.
Proof.
  apply (lock_discipline
           [MIsOpen; MCreateNewPipe "TestPipe" true; MRead 4 2000;
            MOpenExisting "Elsewhere"; MClose] freshSt).
  reflexivity.
Defined.

Lemma openExisting_decided_witness :
  answerOf (call 1 (openExisting "TestPipe") createdSys) = Some true.
Proof.
  destruct (openExisting_decided createdSys 1 construct "TestPipe")
    as [[_ Hyes] _].
  - apply createdSys_reachable.
  - vm_compute. reflexivity.
  - apply Hyes. exists 0%nat, (mkNamedPipe "TestPipe" (Some 0%nat)), 0%nat.
    split; [lia|]. split; [vm_compute; reflexivity|].
    split; [reflexivity | vm_compute; reflexivity].
Defined.

Lemma createNewPipe_exclusive_decided_witness :
  answerOf (call 1 (createNewPipe "TestPipe" true) createdSys) = Some false.
Proof.
  destruct (createNewPipe_exclusive_decided createdSys 1 construct "TestPipe")
    as [[_ Hno] _].
  - apply createdSys_reachable.
  - vm_compute. reflexivity.
  - apply Hno. exists 0%nat, (mkNamedPipe "TestPipe" (Some 0%nat)), 0%nat.
    split; [lia|]. split; [vm_compute; reflexivity|].
    split; [reflexivity | vm_compute; reflexivity].
Defined.

Lemma createNewPipe_joins_witness :
  ∃ s' h, call 1 (createNewPipe "TestPipe" false) createdSys = Some (true, s') ∧
          insts s' !! 1%nat = Some (mkNamedPipe "TestPipe" (Some h)).
Proof.
  destruct (createNewPipe_joins createdSys 1 construct "TestPipe")
    as (s' & h & Hcall & Hinst & _).
  - apply createdSys_reachable.
  - vm_compute. reflexivity.
  - by exists s', h.
Defined.

Lemma openExisting_creates_nothing_witness :
  owners (os createdSys) !! "TestPipe" = Some 0%nat.
Proof.
  apply (openExisting_creates_nothing createdSys 1 "TestPipe" "TestPipe" 0).
  vm_compute. reflexivity.
Defined.

Lemma other_objects_untouched_witness :
  insts (exec (OpenExisting 1 "TestPipe") createdSys) !! 0%nat
  = Some (mkNamedPipe "TestPipe" (Some 0%nat)).
Proof.
  apply (other_objects_untouched (OpenExisting 1 "TestPipe") createdSys 0
           (mkNamedPipe "TestPipe" (Some 0%nat))).
  - apply createdSys_reachable.
  - cbn. lia.
  - vm_compute. reflexivity.
Defined.

Lemma platform_accounting_witness :
  ∃ ep, endpoints (os createdSys) !! 0%nat = Some ep ∧ epName ep = "TestPipe".
Proof.
  destruct (platform_accounting createdSys) as (_ & Hnames & _).
  - apply createdSys_reachable.
  - apply Hnames. vm_compute. reflexivity.
Defined.

Lemma lifecycleTests_pass_everywhere_witness :
  (lifecycleTests "TestPipe" (init [])).1 = replicate 13 true ∧
  insts (lifecycleTests "TestPipe" (init [])).2 = insts (init []).
Proof.
  destruct (lifecycleTests_pass_everywhere "TestPipe" (init []))
    as (Hpass & _ & Hinsts).
  - split; [apply reach_init|]. by vm_compute.
  - by split.
Defined.

Lemma thread_without_pipe_witness :
  SenderThread_run
    (NamedPipeThread_ctor 0 "TestPipe" false false [] (init [])).1
    (NamedPipeThread_ctor 0 "TestPipe" false false [] (init [])).2
  = (mkThread 0 true (-1) [],
     (NamedPipeThread_ctor 0 "TestPipe" false false [] (init [])).2).
Proof.
  apply (thread_without_pipe 0 "TestPipe" false [] (init [])).
  - vm_compute. reflexivity.
  - vm_compute. reflexivity.
Defined.

Lemma thread_creates_for_opener_witness :
  answerOf (call 1 isOpen
              (NamedPipeThread_ctor 1 "TestPipe" true false []
                 (run [Construct 0] (init []))).2) = Some true.
Proof.
  apply (thread_creates_for_opener 1 0 "TestPipe" false []
           (run [Construct 0] (init [])) construct).
  - vm_compute. reflexivity.
  - vm_compute. reflexivity.
  - reflexivity.
Defined.

Lemma thread_opens_created_witness :
  answerOf (call 1 isOpen
              (NamedPipeThread_ctor 1 "TestPipe" false false []
                 (exec (CreateNewPipe 0 "TestPipe" true)
                       (run [Construct 0] (init [])))).2) = Some true.
Proof.
  apply (thread_opens_created 1 0 "TestPipe" false []
           (run [Construct 0] (init []))
           (exec (CreateNewPipe 0 "TestPipe" true) (run [Construct 0] (init [])))).
  - vm_compute. reflexivity.
  - vm_compute. reflexivity.
Defined.

(** ** The platform that carries bytes keeps the invariant *)

Section StreamFacts.
Implicit Types (s : StreamSystem) (i j a b : nat) (p q : NamedPipe nat)
  (h : nat) (n : string) (w : Stream.World).

Lemma stream_closeWorld_registry (o : option nat) w :
  Stream.registry (closeWorld o w) = closeWorld o (Stream.registry w).
Proof. by destruct o. Qed.

Lemma stream_closeWorld_inbox (o : option nat) w h :
  o ≠ Some h → Stream.inbox (closeWorld o w) !! h = Stream.inbox w !! h.
Proof.
  destruct o as [h0|]; [|done]. intros Hne. cbn.
  apply lookup_delete_ne. congruence.
Qed.

Lemma stream_open_registry n (srv excl : bool) w :
  (Stream.open n srv excl w).1 = (open n srv excl (Stream.registry w)).1 ∧
  Stream.registry (Stream.open n srv excl w).2
    = (open n srv excl (Stream.registry w)).2.
Proof. unfold Stream.open. by destruct (open n srv excl _) as [r reg]. Qed.

Lemma streamCall_close s i p :
  sInsts s !! i = Some p →
  streamCall i close s
  = Some (tt, mkStreamSystem (<[i := mkNamedPipe (currentPipeName p) None]> (sInsts s))
                             (closeWorld (pimpl p) (sOs s))).
Proof. intros Hi. unfold streamCall. by rewrite Hi, close_spec. Qed.

Lemma streamCall_openExisting s i p n :
  sInsts s !! i = Some p →
  streamCall i (openExisting n) s
  = let '(r, w) := Stream.open n false false (closeWorld (pimpl p) (sOs s)) in
    Some (notNull r, mkStreamSystem (<[i := mkNamedPipe n r]> (sInsts s)) w).
Proof.
  intros Hi. unfold streamCall. rewrite Hi, openExisting_spec, close_spec.
  cbn [self drv trace snd driverOpen Stream.driver].
  by destruct (Stream.open n false false _) as [r w].
Qed.

Lemma streamCall_createNewPipe s i p n (m : bool) :
  sInsts s !! i = Some p →
  streamCall i (createNewPipe n m) s
  = let '(r, w) := Stream.open n true m (closeWorld (pimpl p) (sOs s)) in
    Some (notNull r, mkStreamSystem (<[i := mkNamedPipe n r]> (sInsts s)) w).
Proof.
  intros Hi. unfold streamCall. rewrite Hi, createNewPipe_spec, close_spec.
  cbn [self drv trace snd driverOpen Stream.driver].
  by destruct (Stream.open n true m _) as [r w].
Qed.

Lemma stream_transfer_registry h w :
  (∀ k t, Stream.registry (Stream.readHandle h k t w).2 = Stream.registry w) ∧
  (∀ (buf : list Byte.byte) t, Stream.registry (Stream.writeHandle h buf t w).2 = Stream.registry w).
Proof.
  split.
  - intros k t. unfold Stream.readHandle.
    destruct (usable _ _); [|done]. destruct (k <=? 0); [done|].
    by destruct (Stream.pending h w).
  - intros buf t. unfold Stream.writeHandle.
    destruct (endpoints _ !! h) as [ep|]; [|done].
    destruct (usable _ _); [|done]. destruct buf; [done|].
    by case_decide.
Qed.

Lemma cancelled_closeWorld (o : option nat) (w : World) :
  cancelled w = ∅ → cancelled (closeWorld o w) = ∅.
Proof.
  destruct o as [h|]; [|done]. intros Hc. cbn.
  unfold closeHandle, cancelPendingIO; cbn.
  destruct (endpoints w !! h); cbn; rewrite Hc;
    apply set_eq; intros x;
    rewrite elem_of_difference, ?elem_of_union, ?elem_of_singleton, elem_of_empty;
    tauto.
Qed.

Lemma cancelled_open n (srv excl : bool) (w : World) :
  cancelled (open n srv excl w).2 = cancelled w.
Proof.
  unfold open, connect.
  destruct (owners w !! n); [destruct (srv && excl)|destruct srv]; done.
Qed.

(** A member function that leaves the object, the endpoints and the names
    as they were. *)
Lemma streamInv_observer {A} (m : M Stream.World nat A) s i :
  (∀ st, self (m st).2 = self st ∧
         Stream.registry (drv (m st).2) = Stream.registry (drv st)) →
  StreamInv s → StreamInv (streamAfter (streamCall i m s) s).
Proof.
  intros Hm HI. unfold streamCall.
  destruct (sInsts s !! i) as [p|] eqn:Hi; [|done].
  destruct (Hm (mkSt p (sOs s) [])) as [Hself Hreg].
  destruct (m _) as [r st]; cbn in *.
  unfold StreamInv, registryOf in *; cbn.
  rewrite Hself, insert_id, Hreg by done. done.
Qed.

Lemma streamInv_close s i : StreamInv s → StreamInv (streamAfter (streamCall i close s) s).
Proof.
  intros [HI Hc]. destruct (sInsts s !! i) as [p|] eqn:Hi.
  - rewrite (streamCall_close s i p Hi). unfold StreamInv, registryOf; cbn.
    rewrite stream_closeWorld_registry. split.
    + pose proof (inv_close (registryOf s) i HI) as H1.
      by rewrite (call_close (registryOf s) i p Hi) in H1.
    + by apply cancelled_closeWorld.
  - unfold streamCall. by rewrite Hi.
Qed.

Lemma streamInv_open s i p n (srv excl : bool) r w :
  StreamInv s → sInsts s !! i = Some p →
  Stream.open n srv excl (closeWorld (pimpl p) (sOs s)) = (r, w) →
  StreamInv (mkStreamSystem (<[i := mkNamedPipe n r]> (sInsts s)) w).
Proof.
  intros [HI Hc] Hi Hopen.
  destruct (stream_open_registry n srv excl (closeWorld (pimpl p) (sOs s)))
    as [Hr Hreg].
  rewrite Hopen in Hr, Hreg. cbn in Hr, Hreg.
  rewrite stream_closeWorld_registry in Hr, Hreg.
  unfold StreamInv, registryOf; cbn. rewrite Hreg. split.
  - apply (inv_open (registryOf s) i p n srv excl); [done..|].
    cbn. rewrite Hr. by destruct (open n srv excl _).
  - rewrite cancelled_open. by apply cancelled_closeWorld.
Qed.

Lemma streamInv_exec o s : StreamInv s → StreamInv (streamExec o s).
Proof.
  intros HI. destruct o as [i|i|i n|i n m|i|i|i|i k t|i b k t]; cbn.
  - destruct (sInsts s !! i) eqn:Hi; [done|]. destruct HI as [HI Hc].
    split; [|done]. unfold registryOf; cbn.
    apply (inv_insert_closed (registryOf s)); [done|]. intros p Hp.
    cbn in Hp. congruence.
  - pose proof (streamInv_close s i HI) as H1. unfold destroy.
    destruct (sInsts s !! i) as [p|] eqn:Hi.
    + rewrite (streamCall_close s i p Hi) in *. cbn in *.
      destruct H1 as [H1 Hc]. split; [|done]. unfold registryOf in *; cbn in *.
      pose proof (inv_delete _ i (mkNamedPipe (currentPipeName p) None) H1) as H2.
      cbn in H2. rewrite lookup_insert_eq, delete_insert_eq in H2.
      rewrite delete_insert_eq. by apply H2.
    + unfold streamCall. by rewrite Hi.
  - destruct (sInsts s !! i) as [p|] eqn:Hi.
    + rewrite (streamCall_openExisting s i p n Hi).
      destruct (Stream.open n false false _) as [r w] eqn:Hopen; cbn.
      by eapply streamInv_open.
    + unfold streamCall. by rewrite Hi.
  - destruct (sInsts s !! i) as [p|] eqn:Hi.
    + rewrite (streamCall_createNewPipe s i p n m Hi).
      destruct (Stream.open n true m _) as [r w] eqn:Hopen; cbn.
      by eapply streamInv_open.
    + unfold streamCall. by rewrite Hi.
  - by apply streamInv_close.
  - apply streamInv_observer; [|done]. intros st. by rewrite isOpen_spec.
  - apply streamInv_observer; [|done]. intros st. by rewrite getName_spec.
  - apply streamInv_observer; [|done]. intros st. rewrite read_spec.
    destruct (pimpl (self st)) as [h|]; [|done].
    cbn [driverRead Stream.driver].
    pose proof (proj1 (stream_transfer_registry h (drv st)) k t) as Hreg.
    by destruct (Stream.readHandle h k t (drv st)) as [[] w].
  - apply streamInv_observer; [|done]. intros st. rewrite write_spec.
    destruct (pimpl (self st)) as [h|]; [|done].
    cbn [driverWrite Stream.driver].
    pose proof (proj2 (stream_transfer_registry h (drv st)) (take (Z.to_nat k) b) t) as Hreg.
    by destruct (Stream.writeHandle h _ t (drv st)) as [[] w].
Qed.

Lemma streamReachable_inv s : streamReachable s → StreamInv s.
Proof.
  induction 1; [|by apply streamInv_exec].
  split; [apply (inv_init [])|done].
Qed.

End StreamFacts.

(** ** The round trip *)

Section RoundTrip.
Implicit Types (s : StreamSystem) (i j a b x y : nat) (p q : NamedPipe nat)
  (h : nat) (n : string) (w : Stream.World) (sent : list Byte.byte).

Lemma stream_open_some n (srv excl : bool) w h w' :
  Stream.open n srv excl w = (Some h, w') →
  h = nextHandle (Stream.registry w) ∧
  endpoints (Stream.registry w')
    = <[h := mkEndpoint n srv]> (endpoints (Stream.registry w)) ∧
  Stream.inbox w' = <[h := []]> (Stream.inbox w).
Proof.
  unfold Stream.open, open, connect. intros Hopen.
  destruct (owners (Stream.registry w) !! n);
    [destruct (srv && excl)|destruct srv]; by simplify_eq.
Qed.

Lemma usable_open h (ep : Endpoint) (reg : World) :
  cancelled reg = ∅ → endpoints reg !! h = Some ep → usable h reg = true.
Proof.
  intros Hc Hep. unfold usable.
  rewrite bool_decide_eq_true_2 by eauto.
  rewrite bool_decide_eq_true_2; [done|]. rewrite Hc. apply not_elem_of_empty.
Qed.

Lemma writeHandle_accepted h ep h' ep' sent (t : Z) w :
  endpoints (Stream.registry w) !! h = Some ep →
  usable h (Stream.registry w) = true →
  Stream.peers ep w !! h' = Some ep' →
  sent ≠ [] →
  Stream.writeHandle h sent t w
  = (IODone (Z.of_nat (length sent)),
     Stream.mkWorld (Stream.registry w) (Stream.deliver ep sent w)).
Proof.
  intros Hep Huse Hpeer Hsent. unfold Stream.writeHandle. rewrite Hep, Huse.
  destruct sent as [|b0 rest]; [done|].
  rewrite decide_False; [done|].
  intros Hdom. apply (not_elem_of_empty (C:=gset nat) h').
  rewrite <- Hdom. apply elem_of_dom. eauto.
Qed.

Lemma readHandle_takes h (maxBytes t : Z) w :
  usable h (Stream.registry w) = true →
  0 < maxBytes → Stream.pending h w ≠ [] →
  (Stream.readHandle h maxBytes t w).1
  = IODone (take (Z.to_nat maxBytes) (Stream.pending h w)).
Proof.
  intros Huse Hmax Hpend. unfold Stream.readHandle. rewrite Huse.
  destruct (maxBytes <=? 0) eqn:Hle; [apply Z.leb_le in Hle; lia|].
  by destruct (Stream.pending h w).
Qed.

Lemma pending_delivered ep h' ep' sent w :
  Stream.peers ep w !! h' = Some ep' →
  Stream.inbox w !! h' = Some [] →
  Stream.pending h'
    (Stream.mkWorld (Stream.registry w) (Stream.deliver ep sent w)) = sent.
Proof.
  intros Hpeer Hin. unfold Stream.pending at 1, Stream.deliver.
  cbn [Stream.inbox].
  erewrite lookup_union_Some_l; [done|].
  rewrite map_lookup_imap, Hpeer. cbn. unfold Stream.pending. by rewrite Hin.
Qed.

(** Bytes written at one end reach the other end, when that end has
    nothing waiting. *)
Lemma transfer s x y px py hx hy epx epy sent (maxBytes tw tr : Z) :
  cancelled (Stream.registry (sOs s)) = ∅ →
  x ≠ y →
  sInsts s !! x = Some px → pimpl px = Some hx →
  sInsts s !! y = Some py → pimpl py = Some hy →
  endpoints (Stream.registry (sOs s)) !! hx = Some epx →
  endpoints (Stream.registry (sOs s)) !! hy = Some epy →
  Stream.facing epx (hy, epy) →
  Stream.inbox (sOs s) !! hy = Some [] →
  sent ≠ [] → Z.of_nat (length sent) ≤ maxBytes →
  writeThenRead s x y sent maxBytes tw tr
  = Some (Z.of_nat (length sent), (Z.of_nat (length sent), sent)).
Proof.
  intros Hc Hxy Hx Hpx Hy Hpy Hepx Hepy Hface Hin Hsent Hmax.
  assert (0 < length sent)%nat by (destruct sent; [done|cbn; lia]).
  assert (Htake : take (Z.to_nat maxBytes) sent = sent) by (apply take_ge; lia).
  assert (Hall : take (Z.to_nat (Z.of_nat (length sent))) sent = sent)
    by (apply take_ge; lia).
  assert (Hpeer : Stream.peers epx (sOs s) !! hy = Some epy)
    by (by apply map_lookup_filter_Some).
  unfold writeThenRead, streamCall. rewrite Hx, write_spec.
  cbn [self drv driverWrite Stream.driver]. rewrite Hpx, Hall.
  rewrite (writeHandle_accepted hx epx hy epy sent tw (sOs s))
    by eauto using usable_open.
  cbn [sInsts sOs self drv fst snd].
  rewrite lookup_insert_ne, Hy, read_spec by done.
  cbn [self drv driverRead Stream.driver]. rewrite Hpy.
  pose proof (pending_delivered epx hy epy sent (sOs s) Hpeer Hin) as Hpend.
  pose proof (readHandle_takes hy maxBytes tr
                (Stream.mkWorld (Stream.registry (sOs s))
                                (Stream.deliver epx sent (sOs s)))) as Hread.
  rewrite Hpend, Htake in Hread.
  destruct (Stream.readHandle hy maxBytes tr _) as [r w3]. cbn in Hread.
  rewrite Hread; [done| |lia|done].
  cbn [Stream.registry]. by apply (usable_open hy epy).
Qed.


End RoundTrip.

Lemma streamReachable_run ops s : streamReachable s → streamReachable (streamRun ops s).
Proof.
  revert s. induction ops as [|o ops IH]; intros s Hs; [done|].
  cbn. apply IH. by constructor.
Qed.


